(** * heatlab: the glow sprite and the arc icon

    A shallow embedding of [glowGen.py] and [iconGen.py].

    - 8-bit bands and RGBA buffers are lists of rows ([grid]); a pixel value is
      an integer, and the conversion to [uint8] writes its wrap-around out.
    - The [np.float32] arithmetic of [glowGen.py] is IEEE 754 binary32,
      operation by operation: a float is an infinity, a NaN or a rational
      number, and every operation rounds its exact result to the nearest
      float, ties to even ([F32]).  A Python number passed as a parameter is
      the rational it stands for.  numpy's [power] on floats, whose rounding
      no standard fixes, is an interface ([Numpy]).
    - The Python floats of [iconGen.py] (the Bezier points handed to Pillow)
      are real numbers.
    - What the scripts call in Pillow without defining it (stroke and ellipse
      rasterisation, Lanczos resampling, Gaussian blur, PNG encoding) is an
      interface, [Imaging]; the rank filters, [putalpha] and [Image.new] are
      written out.
    - [save] threads a file system, a finite map from paths to file contents. *)

From Stdlib Require Import ZArith QArith Qround Qpower Qreduction Qcanon.
From Stdlib Require Import List Lia Reals Lra String SpecFloat.
From Stdlib Require Lqa.
From stdpp Require Import base gmap strings.
Import ListNotations.

(** ** Raster buffers *)

Module Raster.

(** A buffer of [h] rows of [w] pixels, row [y] first. *)
Definition grid (A : Type) : Type := list (list A).

Definition height {A} (g : grid A) : nat := length g.

Definition width {A} (g : grid A) : nat := length (hd [] g).

(** [g[y][x]], with [d] where the buffer has no such pixel. *)
Definition get {A} (d : A) (g : grid A) (x y : nat) : A := nth x (nth y g []) d.

(** The buffer whose pixel [(x, y)] is [f x y]. *)
Definition tabulate {A} (w h : nat) (f : nat -> nat -> A) : grid A :=
  map (fun y => map (fun x => f x y) (seq 0 w)) (seq 0 h).

(** An elementwise operation (a numpy ufunc, a masked assignment). *)
Definition map_px {A B} (f : A -> B) (g : grid A) : grid B := map (map f) g.

(** [g] is a [w] by [h] rectangle. *)
Definition rect {A} (w h : nat) (g : grid A) : Prop :=
  length g = h /\ Forall (fun row => length row = w) g.

(** Every pixel of [g] satisfies [P]. *)
Definition all_px {A} (P : A -> Prop) (g : grid A) : Prop := Forall (Forall P) g.

(** The 8-bit range. *)
Definition is_uint8 (v : Z) : Prop := (0 <= v <= 255)%Z.

(** An RGBA pixel. *)
Record rgba : Type := RGBA { red : Z; green : Z; blue : Z; alpha : Z }.

Definition transparent_black : rgba := RGBA 0 0 0 0.

(** [Image.new(mode, (w, h), color)]. *)
Definition new {A} (w h : nat) (color : A) : grid A := tabulate w h (fun _ _ => color).

End Raster.

Import Raster.

(** ** The part of Pillow the scripts use without defining it *)

(** The file system: what is stored under each path. *)
Abbreviation filesystem := (gmap string (list Z)).

Class Imaging : Type := {
  (** [ImageDraw.line(pts, fill, width, joint="curve")] on an "L" canvas. *)
  draw_line : list (R * R) -> Z -> R -> grid Z -> grid Z;
  (** [ImageDraw.ellipse((x0, y0, x1, y1), fill)] on an "L" canvas. *)
  draw_ellipse : R * R * R * R -> Z -> grid Z -> grid Z;
  (** [Image.resize((w, h), resample=LANCZOS)] on an "L" image. *)
  resize_lanczos : nat * nat -> grid Z -> grid Z;
  (** [Image.filter(ImageFilter.GaussianBlur(radius))] on an RGBA image. *)
  gaussian_blur : R -> grid rgba -> grid rgba;
  (** The PNG encoder behind [Image.save(path, "PNG")]. *)
  png_encode : grid rgba -> list Z
}.

(** [Image.save(path, "PNG")]: the file at [path] becomes the encoded image. *)
Definition save `{Imaging} (path : string) (img : grid rgba) (fs : filesystem) : filesystem :=
  <[path := png_encode img]> fs.

(** The resampler returns an image of the size it was asked for. *)
Definition resize_to_size (L : Imaging) : Prop :=
  forall w h src, rect w h (resize_lanczos (w, h) src).

(** The colour and alpha bands of an RGBA pixel. *)
Inductive band : Type := Red | Green | Blue | Alpha.

Definition channel (b : band) (p : rgba) : Z :=
  match b with Red => red p | Green => green p | Blue => blue p | Alpha => alpha p end.

(** The blur keeps the size of the image, and its kernel is normalised: a band
    that is flat before the blur is flat, with the same value, after it. *)
Definition blur_normalised (L : Imaging) : Prop :=
  forall radius w h img,
    rect w h img ->
    rect w h (gaussian_blur radius img) /\
    forall b c, is_uint8 c ->
      (forall x y, (x < w)%nat -> (y < h)%nat -> channel b (get transparent_black img x y) = c) ->
      forall x y, (x < w)%nat -> (y < h)%nat ->
        channel b (get transparent_black (gaussian_blur radius img) x y) = c.

(** An 8-bit RGBA pixel. *)
Definition rgba_uint8 (p : rgba) : Prop :=
  is_uint8 (red p) /\ is_uint8 (green p) /\ is_uint8 (blue p) /\ is_uint8 (alpha p).

(** The blur of an 8-bit image is an 8-bit image. *)
Definition blur_uint8 (L : Imaging) : Prop :=
  forall radius img, all_px rgba_uint8 img -> all_px rgba_uint8 (gaussian_blur radius img).

(** ** Binary32, the arithmetic of [np.float32]

    A float is a finite number, a negative zero, an infinity or a NaN.  The
    finite floats are the rational numbers [m * 2^e] with [|m| < 2^24] and
    [-149 <= e], below [2^128]; [RN] rounds a rational number to the nearest
    of them, ties to the even significand, to an infinity from [2^128] on,
    and to a zero of its sign below half the smallest float.  An operation
    computes its exact result and rounds it; the special cases are those of
    IEEE 754. *)

Module F32.

Local Open Scope Q_scope.

Inductive f32 : Type :=
| Fin (q : Q)   (** a finite float; [Fin 0] is [+0.0] *)
| NZero         (** [-0.0] *)
| PInf
| NInf
| NaN.

(** The exponent of the smallest normal float. *)
Definition emin : Z := -126.

Definition pow2 (e : Z) : Q := (2 # 1) ^ e.

(** [floor (log2 a)], for [a > 0]. *)
Definition ilog2 (a : Q) : Z :=
  let k := (Z.log2 (Qnum a) - Z.log2 (Zpos (Qden a)))%Z in
  if Qle_bool (pow2 k) a then k else (k - 1)%Z.

(** The integer nearest to [x], ties to even. *)
Definition rne (x : Q) : Z :=
  let f := Qfloor x in
  match Qcompare (x - inject_Z f) (1 # 2) with
  | Lt => f
  | Gt => (f + 1)%Z
  | Eq => if Z.even f then f else (f + 1)%Z
  end.

(** The float [m * 2^e], which overflows to infinity from [2^128] on. *)
Definition pack (m e : Z) : f32 :=
  let v := inject_Z m * pow2 e in
  if Qle_bool (pow2 128) v then PInf else Fin (Qred v).

(** Rounding [a > 0]: 24 significant bits, fewer below [2^-126]. *)
Definition round_pos (a : Q) : f32 :=
  let e := (Z.max (ilog2 a) emin - 23)%Z in
  pack (rne (a / pow2 e)) e.

Definition fopp (x : f32) : f32 :=
  match x with
  | Fin q => if Qeq_bool q 0 then NZero else Fin (- q)
  | NZero => Fin 0
  | PInf => NInf
  | NInf => PInf
  | NaN => NaN
  end.

(** Rounding to the nearest float. *)
Definition RN (q : Q) : f32 :=
  match Qnum q with
  | Z0 => Fin 0
  | Zpos _ => round_pos q
  | Zneg _ => fopp (round_pos (- q))
  end.

(** The integer nearest to the square root of [y], ties to even. *)
Definition sqrt_rne (y : Q) : Z :=
  let f := Z.sqrt (Qfloor y) in
  let h := inject_Z f + (1 # 2) in
  match Qcompare y (h * h) with
  | Lt => f
  | Gt => (f + 1)%Z
  | Eq => if Z.even f then f else (f + 1)%Z
  end.

(** The float nearest to the square root of [a > 0]. *)
Definition sqrt_pos (a : Q) : f32 :=
  let e := (Z.max (ilog2 a / 2) emin - 23)%Z in
  pack (sqrt_rne (a / pow2 (2 * e))) e.

(** The sign of [q]: [Lt] for positive, [Eq] for zero, [Gt] for negative. *)
Definition sgn (q : Q) : comparison := (0 ?= Qnum q)%Z.

(** The sign bit. *)
Definition negative (x : f32) : bool :=
  match x with
  | Fin q => match sgn q with Gt => true | _ => false end
  | NZero | NInf => true
  | PInf | NaN => false
  end.

Definition is_nan (x : f32) : bool := match x with NaN => true | _ => false end.

(** The value of a float that is not an infinity or a NaN. *)
Definition fval (x : f32) : option Q :=
  match x with Fin q => Some q | NZero => Some 0 | _ => None end.

Definition zero (s : bool) : f32 := if s then NZero else Fin 0.

Definition inf (s : bool) : f32 := if s then NInf else PInf.

Definition fadd (x y : f32) : f32 :=
  match x, y with
  | NaN, _ | _, NaN => NaN
  | PInf, NInf | NInf, PInf => NaN
  | PInf, _ | _, PInf => PInf
  | NInf, _ | _, NInf => NInf
  | NZero, NZero => NZero
  | Fin a, Fin b => RN (a + b)
  | Fin a, NZero | NZero, Fin a => RN (a + 0)
  end.

Definition fsub (x y : f32) : f32 := fadd x (fopp y).

Definition fmul (x y : f32) : f32 :=
  if is_nan x || is_nan y then NaN
  else
    let s := xorb (negative x) (negative y) in
    match fval x, fval y with
    | Some a, Some b => if Qeq_bool (a * b) 0 then zero s else RN (a * b)
    | Some a, None | None, Some a => if Qeq_bool a 0 then NaN else inf s
    | None, None => inf s
    end.

Definition fdiv (x y : f32) : f32 :=
  if is_nan x || is_nan y then NaN
  else
    let s := xorb (negative x) (negative y) in
    match fval x, fval y with
    | Some a, Some b =>
        if Qeq_bool b 0 then (if Qeq_bool a 0 then NaN else inf s)
        else if Qeq_bool a 0 then zero s else RN (a / b)
    | Some _, None => zero s
    | None, Some _ => inf s
    | None, None => NaN
    end.

Definition fsqrt (x : f32) : f32 :=
  match x with
  | Fin a => match sgn a with Eq => Fin 0 | Lt => sqrt_pos a | Gt => NaN end
  | NZero => NZero
  | PInf => PInf
  | NInf | NaN => NaN
  end.

(** [x < y]; false when either is a NaN. *)
Definition fltb (x y : f32) : bool :=
  match fval x, fval y with
  | Some a, Some b => negb (Qle_bool b a)
  | _, _ =>
      match x, y with
      | NaN, _ | _, NaN => false
      | PInf, _ | _, NInf => false
      | _, _ => true
      end
  end.

(** [x <= y], as a proposition; false when either is a NaN. *)
Definition fle (x y : f32) : Prop :=
  match fval x, fval y with
  | Some a, Some b => a <= b
  | _, _ =>
      match x, y with
      | NaN, _ | _, NaN => False
      | NInf, _ | _, PInf => True
      | _, _ => False
      end
  end.

Definition is_finite (x : f32) : Prop :=
  match x with Fin _ | NZero => True | _ => False end.

Definition is_positive (x : f32) : Prop := match x with Fin q => 0 < q | _ => False end.

(** [np.clip(v, lo, hi)]: a NaN stays a NaN, anything else becomes
    [min(max(v, lo), hi)], where [max] keeps its first operand only if it
    is the greater one, and [min] only if it is the smaller one. *)
Definition clip (v lo hi : f32) : f32 :=
  match v with
  | NaN => NaN
  | _ => let m := if fltb lo v then v else lo in
         if fltb m hi then m else hi
  end.

(** Rounding toward zero, as a float-to-integer cast does. *)
Definition trunc (q : Q) : Z := if Qle_bool 0 q then Qfloor q else Qceiling q.

(** [.astype(np.uint8)]: truncation, then the low eight bits.  C leaves the
    conversion of a NaN or an infinity open; the usual hardware gives a
    value whose low eight bits are [0]. *)
Definition astype_uint8 (v : f32) : Z :=
  match v with Fin q => (trunc q mod 256)%Z | _ => 0%Z end.

End F32.

Import F32.

(** ** The part of numpy the script uses without defining it *)

Class Numpy : Type := {
  (** [t ** p] on [float32] values: the [power] ufunc, C's [powf] behind it. *)
  power32 : f32 -> f32 -> f32
}.

(** What C fixes of [powf]: [powf(1, p) = 1], and [powf(+0, p) = +0] for
    [p > 0]. *)
Definition power_fixed (N : Numpy) : Prop :=
  (forall p, power32 (Fin 1) (Fin p) = Fin 1) /\
  (forall p, (0 < p)%Q -> power32 (Fin 0) (Fin p) = Fin 0).

(** For a positive exponent, [power] of a base in [0, 1] is a finite float,
    not negative, and it does not decrease when the base grows. *)
Definition power_monotone (N : Numpy) : Prop :=
  forall t1 t2 p, (0 <= t1)%Q -> (t1 <= t2)%Q -> (t2 <= 1)%Q -> (0 < p)%Q ->
    exists w1 w2, power32 (Fin t1) (Fin p) = Fin w1 /\ power32 (Fin t2) (Fin p) = Fin w2 /\
                  (0 <= w1)%Q /\ (w1 <= w2)%Q.

(** ** iconGen.py *)

Module Icon.

Definition out_dir : string := "./icons".
Definition OUT : nat := 1024.

Local Open Scope R_scope.

(** [cubic(p0, p1, p2, p3, t)]: the cubic Bezier point at parameter [t]. *)
Definition cubic (p0 p1 p2 p3 : R * R) (t : R) : R * R :=
  ( (1 - t) ^ 3 * fst p0 + 3 * (1 - t) ^ 2 * t * fst p1 + 3 * (1 - t) * t ^ 2 * fst p2 + t ^ 3 * fst p3,
    (1 - t) ^ 3 * snd p0 + 3 * (1 - t) ^ 2 * t * snd p1 + 3 * (1 - t) * t ^ 2 * snd p2 + t ^ 3 * snd p3 ).

(** The control points of the arc on the supersampled canvas. *)
Definition p0 (scale : nat) : R * R := (160 * INR scale, 560 * INR scale).
Definition p1 (scale : nat) : R * R := (360 * INR scale, 560 * INR scale).
Definition p2 (scale : nat) : R * R := (664 * INR scale, 250 * INR scale).
Definition p3 (scale : nat) : R * R := (864 * INR scale, 535 * INR scale).

(** [pts]: the 2000 samples [cubic(p0, p1, p2, p3, i/1999)]. *)
Definition pts (scale : nat) : list (R * R) :=
  map (fun i => cubic (p0 scale) (p1 scale) (p2 scale) (p3 scale) (INR i / 1999)) (seq 0 2000).

(** The bounding box of the cap of radius [cap_r] around a point. *)
Definition cap_box (cap_r : R) (c : R * R) : R * R * R * R :=
  (fst c - cap_r, snd c - cap_r, fst c + cap_r, snd c + cap_r).

(** [make_arc_mask(out_size, scale, stroke_w)]. *)
Definition make_arc_mask `{Imaging} (out_size scale stroke_w : nat) : grid Z :=
  let W := (out_size * scale)%nat in
  let H := W in
  let mask := new W H 0%Z in
  let mask := draw_line (pts scale) 255%Z (INR (stroke_w * scale)) mask in
  let cap_r := INR (stroke_w * scale) / 2 in
  let mask :=
    fold_left (fun m c => draw_ellipse (cap_box cap_r c) 255%Z m)
              [nth 0 (pts scale) (0, 0); List.last (pts scale) (0, 0)] mask in
  resize_lanczos (out_size, out_size) mask.

Local Close Scope R_scope.

(** *** The rank filters

    [ImageFilter.MaxFilter(size)] and [MinFilter(size)] pad the image by
    [size // 2] replicated edge pixels and take the largest (smallest) value
    of the [size] by [size] window around each pixel. *)

(** The source coordinate under tap [k] of the window centred at [i], on an
    axis of [n] pixels padded by [r] copies of each edge pixel. *)
Definition tap (n r i k : nat) : nat := Nat.min (i + k - r) (n - 1).

Definition taps (n r i : nat) : list nat := map (tap n r i) (seq 0 (2 * r + 1)).

(** The source pixels under the window centred at [(x, y)], row by row. *)
Definition window (w h r x y : nat) : list (nat * nat) :=
  flat_map (fun y' => map (fun x' => (x', y')) (taps w r x)) (taps h r y).

(** The rank-0 or rank-last element of a window: a running [op] from its
    first value. *)
Definition extremum (op : Z -> Z -> Z) (vs : list Z) : Z :=
  match vs with
  | [] => 0%Z
  | v :: vs' => fold_left op vs' v
  end.

(** The filter as an operator on pixel functions. *)
Definition window_op (op : Z -> Z -> Z) (w h r : nat) (f : nat -> nat -> Z) (x y : nat) : Z :=
  extremum op (map (fun p => f (fst p) (snd p)) (window w h r x y)).

Definition rank_filter (op : Z -> Z -> Z) (size : nat) (m : grid Z) : grid Z :=
  tabulate (width m) (height m) (window_op op (width m) (height m) (size / 2) (get 0%Z m)).

Definition MaxFilter (size : nat) : grid Z -> grid Z := rank_filter Z.max size.
Definition MinFilter (size : nat) : grid Z -> grid Z := rank_filter Z.min size.

(** *** The threshold snaps *)

(** [a[a < 8] = 0]. *)
Definition snap_low (v : Z) : Z := if (v <? 8)%Z then 0%Z else v.

(** [a[a >= 200] = 255]. *)
Definition snap_high (v : Z) : Z := if (200 <=? v)%Z then 255%Z else v.

(** [clean_mask(mask_small)], stage by stage. *)
Definition stage_m (mask_small : grid Z) : grid Z := MinFilter 5 (MaxFilter 5 mask_small).
Definition stage_a (mask_small : grid Z) : grid Z :=
  map_px snap_high (map_px snap_low (stage_m mask_small)).
Definition stage_m2 (mask_small : grid Z) : grid Z := MinFilter 3 (MaxFilter 3 (stage_a mask_small)).
Definition stage_a2 (mask_small : grid Z) : grid Z :=
  map_px snap_low (map_px snap_high (stage_m2 mask_small)).

Definition clean_mask (mask_small : grid Z) : grid Z := stage_a2 mask_small.

(** [Image.putalpha(mask)]: the alpha band is replaced by the mask; Pillow
    raises [ValueError] when the sizes differ. *)
Definition same_size {A B} (a : grid A) (b : grid B) : bool :=
  (height a =? height b)%nat && (width a =? width b)%nat.

Definition putalpha (img : grid rgba) (mask : grid Z) : option (grid rgba) :=
  if same_size img mask then
    Some (tabulate (width img) (height img)
            (fun x y => let p := get transparent_black img x y in
                        RGBA (red p) (green p) (blue p) (get 0%Z mask x y)))
  else None.

(** The image [make_foreground_png_solid] hands to [save]. *)
Definition foreground_image `{Imaging} (stroke_w : nat) : option (grid rgba) :=
  let mask := make_arc_mask OUT 10 stroke_w in
  let mask := clean_mask mask in
  let fg := new OUT OUT (RGBA 255 255 255 255) in
  putalpha fg mask.

(** [make_foreground_png_solid(path, stroke_w)]: [None] stands for the
    exception of [putalpha]. *)
Definition make_foreground_png_solid `{Imaging} (path : string) (stroke_w : nat)
    (fs : filesystem) : option filesystem :=
  match foreground_image stroke_w with
  | Some fg => Some (save path fg fs)
  | None => None
  end.

End Icon.

(** ** glowGen.py *)

Module Glow.

Definition out_dir : string := "/mnt/data".
Definition OUT : nat := 1024.

(** A Python number as a [float32] operand: numpy rounds the scalar to
    [float32].  The parameters stand for Python floats, and for the integers
    that [float] keeps as they are; a scalar beyond the [float32] range
    becomes an infinity (numpy before version 2 computes in double
    there). *)
Definition to_f32 (v : Q) : f32 := RN v.

(** [dist = np.sqrt((xx - cx) ** 2 + (yy - cy) ** 2)], where [** 2] is a
    multiplication. *)
Definition dist (xx yy cx cy : f32) : f32 :=
  let dx := fsub xx cx in
  let dy := fsub yy cy in
  fsqrt (fadd (fmul dx dx) (fmul dy dy)).

(** [t = np.clip(1 - dist / float(radius), 0, 1)]. *)
Definition falloff (radius d : f32) : f32 :=
  clip (fsub (Fin 1) (fdiv d radius)) (Fin 0) (Fin 1).

(** [alpha = (t ** power) * alpha0], as a function of the distance. *)
Definition alpha_f `{Numpy} (radius alpha0 power d : f32) : f32 :=
  fmul (power32 (falloff radius d) power) alpha0.

(** [np.clip(alpha, 0, 255).astype(np.uint8)]: the alpha written to the buffer
    for a pixel at distance [d]. *)
Definition alpha_u8 `{Numpy} (radius alpha0 power d : f32) : Z :=
  astype_uint8 (clip (alpha_f radius alpha0 power d) (Fin 0) (Fin 255)).

(** The distance field: [xx] holds the column index, [yy] the row index, as
    floats. *)
Definition dist_at (center : Q * Q) (x y : nat) : f32 :=
  dist (to_f32 (inject_Z (Z.of_nat x))) (to_f32 (inject_Z (Z.of_nat y)))
       (to_f32 (fst center)) (to_f32 (snd center)).

(** [glow_rgba], assignment by assignment. *)
Definition glow_zeros : grid rgba := new OUT OUT (RGBA 0 0 0 0).

Definition glow_white : grid rgba :=
  map_px (fun p => RGBA 255 255 255 (alpha p)) glow_zeros.

Definition glow_rgba `{Numpy} (center : Q * Q) (radius alpha0 power : Q) : grid rgba :=
  tabulate OUT OUT
    (fun x y => let p := get transparent_black glow_white x y in
                RGBA (red p) (green p) (blue p)
                     (alpha_u8 (to_f32 radius) (to_f32 alpha0) (to_f32 power)
                        (dist_at center x y))).

(** The alpha of pixel [(x, y)] of [glow_rgba], that is, before the blur. *)
Definition pre_blur_alpha `{Numpy} (center : Q * Q) (radius alpha0 power : Q)
    (x y : nat) : Z :=
  alpha (get transparent_black (glow_rgba center radius alpha0 power) x y).

(** The image [make_glow_png] hands to [save]. *)
Definition glow_image `{Imaging} `{Numpy} (center : Q * Q) (radius alpha0 : Q) (blur : R)
    (power : Q) : grid rgba :=
  gaussian_blur blur (glow_rgba center radius alpha0 power).

(** [make_glow_png(path, center, radius, alpha0, blur, power)]. *)
Definition make_glow_png `{Imaging} `{Numpy} (path : string) (center : Q * Q)
    (radius alpha0 : Q) (blur : R) (power : Q) (fs : filesystem) : filesystem :=
  save path (glow_image center radius alpha0 blur power) fs.

(** The defaults of [make_glow_png], which are what the script runs with;
    [1.9] is the double nearest to it. *)
Definition default_center : Q * Q := (512, 410)%Q.
Definition default_radius : Q := 280.
Definition default_alpha0 : Q := 185.
Definition default_blur : R := 20.
Definition default_power : Q := 4278419646001971 # 2251799813685248.

(** The square of the Euclidean distance between pixel [(x, y)] and a centre
    with integer coordinates, in exact arithmetic. *)
Definition sq_distance (cx cy : Z) (x y : nat) : Z :=
  ((Z.of_nat x - cx) ^ 2 + (Z.of_nat y - cy) ^ 2)%Z.

End Glow.

(** ** The falloff in Stdlib's binary32

    The same lines over [SpecFloat], the executable IEEE 754 model of the
    Standard Library, at precision 24 and maximal exponent 128: a second
    transcription, to compare [F32] with. *)

Module Float32.

Local Open Scope Z_scope.

Definition prec : Z := 24.
Definition emax : Z := 128.

(** The float [m * 2^e], rounded. *)
Definition of_scaled (m e : Z) : spec_float := binary_normalize prec emax m e false.
Definition of_int (z : Z) : spec_float := of_scaled z 0.
Definition add : spec_float -> spec_float -> spec_float := SFadd prec emax.
Definition sub : spec_float -> spec_float -> spec_float := SFsub prec emax.
Definition mul : spec_float -> spec_float -> spec_float := SFmul prec emax.
Definition div : spec_float -> spec_float -> spec_float := SFdiv prec emax.
Definition sqrt : spec_float -> spec_float := SFsqrt prec emax.

Definition clip (v lo hi : spec_float) : spec_float :=
  match v with
  | S754_nan => S754_nan
  | _ => let m := if SFltb lo v then v else lo in
         if SFltb m hi then m else hi
  end.

Definition dist (xx yy cx cy : spec_float) : spec_float :=
  let dx := sub xx cx in
  let dy := sub yy cy in
  sqrt (add (mul dx dx) (mul dy dy)).

Definition falloff (radius d : spec_float) : spec_float :=
  clip (sub (of_int 1) (div d radius)) (of_int 0) (of_int 1).

(** The value of a float, as [F32] has it. *)
Definition value (x : spec_float) : f32 :=
  match x with
  | S754_zero s => zero s
  | S754_infinity s => if s then NInf else PInf
  | S754_nan => NaN
  | S754_finite s m e =>
      Fin (Qred (inject_Z (if s then Z.neg m else Z.pos m) * pow2 e))
  end.

End Float32.

(** * Properties *)

(** ** Raster buffers *)

Module RasterFacts.

Lemma height_tabulate {A} w h (f : nat -> nat -> A) : height (tabulate w h f) = h.
Proof. unfold height, tabulate. now rewrite length_map, length_seq. Qed.

Lemma width_tabulate {A} w h (f : nat -> nat -> A) :
  (0 < h)%nat -> width (tabulate w h f) = w.
Proof.
  unfold width, tabulate. destruct h as [|h]; [lia|]. intros _.
  cbn [seq map hd]. now rewrite length_map, length_seq.
Qed.

Lemma get_tabulate {A} (d : A) w h f x y :
  (x < w)%nat -> (y < h)%nat -> get d (tabulate w h f) x y = f x y.
Proof.
  intros Hx Hy. unfold get, tabulate.
  rewrite (nth_indep _ [] (map (fun x0 => f x0 0%nat) (seq 0 w)))
    by now rewrite length_map, length_seq.
  rewrite (map_nth (fun y0 => map (fun x0 => f x0 y0) (seq 0 w)) (seq 0 h) 0%nat y).
  rewrite seq_nth by assumption. cbn [Nat.add].
  rewrite (nth_indep _ d (f 0%nat y)) by now rewrite length_map, length_seq.
  rewrite (map_nth (fun x0 => f x0 y) (seq 0 w) 0%nat x).
  now rewrite seq_nth.
Qed.

Lemma rect_tabulate {A} w h (f : nat -> nat -> A) : rect w h (tabulate w h f).
Proof.
  split; [apply height_tabulate|].
  unfold tabulate. apply List.Forall_forall. intros row Hin.
  apply List.in_map_iff in Hin. destruct Hin as [y [<- _]].
  now rewrite length_map, length_seq.
Qed.

Lemma tabulate_ext {A} w h (f g : nat -> nat -> A) :
  (forall x y, (x < w)%nat -> (y < h)%nat -> f x y = g x y) ->
  tabulate w h f = tabulate w h g.
Proof.
  intros E. unfold tabulate. apply map_ext_in. intros y Hy.
  apply map_ext_in. intros x Hx.
  apply in_seq in Hx, Hy. apply E; lia.
Qed.

Lemma rect_width {A} w h (g : grid A) : rect w h g -> (0 < h)%nat -> width g = w.
Proof.
  intros [Hh Hrows] Hpos. unfold width. destruct g as [|row g]; cbn in *; [lia|].
  now inversion Hrows.
Qed.

Lemma rect_height {A} w h (g : grid A) : rect w h g -> height g = h.
Proof. now intros [Hh _]. Qed.

Lemma rect_row {A} w h (g : grid A) y :
  rect w h g -> (y < h)%nat -> length (nth y g []) = w.
Proof.
  intros [Hh Hrows] Hy. rewrite List.Forall_forall in Hrows.
  apply Hrows, nth_In. lia.
Qed.

Lemma rect_map_px {A B} (f : A -> B) w h (g : grid A) : rect w h g -> rect w h (map_px f g).
Proof.
  intros [Hh Hrows]. split; unfold map_px.
  - now rewrite length_map.
  - apply List.Forall_map. eapply List.Forall_impl; [|exact Hrows].
    cbn. intros row Hrow. now rewrite length_map.
Qed.

Lemma get_map_px {A B} (f : A -> B) (da : A) (db : B) w h (g : grid A) x y :
  rect w h g -> (x < w)%nat -> (y < h)%nat ->
  get db (map_px f g) x y = f (get da g x y).
Proof.
  intros Hr Hx Hy. unfold get, map_px.
  pose proof (rect_row w h g y Hr Hy) as Hlen.
  destruct Hr as [Hh _].
  rewrite (nth_indep _ [] (map f [])) by (rewrite length_map; lia).
  rewrite (map_nth (map f) g [] y).
  rewrite (nth_indep _ db (f da)) by (rewrite length_map; lia).
  now rewrite (map_nth f (nth y g []) da x).
Qed.

(** Two rectangles of one size with the same pixels are the same buffer. *)
Lemma grid_ext {A} (d : A) w h (a b : grid A) :
  rect w h a -> rect w h b ->
  (forall x y, (x < w)%nat -> (y < h)%nat -> get d a x y = get d b x y) ->
  a = b.
Proof.
  intros Ha Hb E.
  apply (nth_ext a b [] []).
  - destruct Ha, Hb. congruence.
  - intros y Hy. destruct Ha as [Hha Hra]. subst h.
    pose proof (rect_row w _ a y (conj eq_refl Hra) Hy) as La.
    pose proof (rect_row w _ b y Hb Hy) as Lb.
    apply (nth_ext _ _ d d); [congruence|].
    intros x Hx. apply E; lia.
Qed.

Lemma all_px_tabulate {A} (P : A -> Prop) w h f :
  (forall x y, (x < w)%nat -> (y < h)%nat -> P (f x y)) -> all_px P (tabulate w h f).
Proof.
  intros Hf. unfold all_px, tabulate.
  apply List.Forall_map, List.Forall_forall. intros y Hy.
  apply List.Forall_map, List.Forall_forall. intros x Hx.
  apply in_seq in Hx, Hy. apply Hf; lia.
Qed.

Lemma all_px_map_px {A B} (P : B -> Prop) (f : A -> B) (g : grid A) :
  (forall v, P (f v)) -> all_px P (map_px f g).
Proof.
  intros Hf. unfold all_px, map_px.
  apply List.Forall_map, List.Forall_forall. intros row _.
  apply List.Forall_map, List.Forall_forall. intros v _. apply Hf.
Qed.

Lemma all_px_map_px_impl {A B} (P : A -> Prop) (Q : B -> Prop) (f : A -> B) (g : grid A) :
  (forall v, P v -> Q (f v)) -> all_px P g -> all_px Q (map_px f g).
Proof.
  intros Hf Hg. unfold all_px, map_px in *.
  apply List.Forall_map. eapply List.Forall_impl; [|exact Hg].
  cbn. intros row Hrow. apply List.Forall_map. eapply List.Forall_impl; [|exact Hrow].
  exact Hf.
Qed.

Lemma all_px_get {A} (P : A -> Prop) (d : A) w h (g : grid A) x y :
  rect w h g -> all_px P g -> (x < w)%nat -> (y < h)%nat -> P (get d g x y).
Proof.
  intros Hr Hall Hx Hy. unfold all_px, get in *.
  pose proof (rect_row w h g y Hr Hy) as Hlen. destruct Hr as [Hh _].
  rewrite List.Forall_forall in Hall.
  assert (Hrow : Forall P (nth y g [])) by (apply Hall, nth_In; lia).
  rewrite List.Forall_forall in Hrow. apply Hrow, nth_In. lia.
Qed.

End RasterFacts.

Import RasterFacts.

(** ** Dilation, erosion and closing over a symmetric neighbourhood

    The order theory behind the rank filters, stated for pixel functions on a
    domain [dom]: [dil f p] is the largest and [ero f p] the smallest value of
    [f] over the neighbours of [p]. *)

Module Morphology.

Section Adjunction.

Context {P : Type} (dom : P -> Prop).

Local Open Scope Z_scope.

Definition agree (f g : P -> Z) : Prop := forall p, dom p -> f p = g p.

Definition below (f g : P -> Z) : Prop := forall p, dom p -> f p <= g p.

Record morph (N : P -> P -> Prop) (dil ero : (P -> Z) -> P -> Z) : Prop := {
  nb_dom : forall p q, dom p -> N p q -> dom q;
  nb_sym : forall p q, dom p -> N p q -> N q p;
  dil_ub : forall f p q, dom p -> N p q -> f q <= dil f p;
  dil_att : forall f p, dom p -> exists q, N p q /\ dil f p = f q;
  ero_lb : forall f p q, dom p -> N p q -> ero f p <= f q;
  ero_att : forall f p, dom p -> exists q, N p q /\ ero f p = f q
}.

Lemma agree_refl f : agree f f.
Proof. now intros p _. Qed.

Lemma agree_sym f g : agree f g -> agree g f.
Proof. intros E p Hp. symmetry. now apply E. Qed.

Lemma agree_trans f g k : agree f g -> agree g k -> agree f k.
Proof. intros E1 E2 p Hp. rewrite E1 by assumption. now apply E2. Qed.

Lemma agree_below f g : agree f g -> below f g.
Proof. intros E p Hp. rewrite E by assumption. lia. Qed.

Lemma below_antisym f g : below f g -> below g f -> agree f g.
Proof. intros L1 L2 p Hp. specialize (L1 p Hp). specialize (L2 p Hp). lia. Qed.

Lemma agree_post (s : Z -> Z) f g :
  agree f g -> agree (fun p => s (f p)) (fun p => s (g p)).
Proof. intros E p Hp. cbn. now rewrite E. Qed.

Section OnePair.

Context {N : P -> P -> Prop} {dil ero : (P -> Z) -> P -> Z} (M : morph N dil ero).

Lemma dil_mono f g : below f g -> below (dil f) (dil g).
Proof.
  intros L p Hp. destruct (dil_att _ _ _ M f p Hp) as [q [Hq ->]].
  etransitivity; [apply L; eapply nb_dom; eauto|]. now apply (dil_ub _ _ _ M).
Qed.

Lemma ero_mono f g : below f g -> below (ero f) (ero g).
Proof.
  intros L p Hp. destruct (ero_att _ _ _ M g p Hp) as [q [Hq ->]].
  etransitivity; [now apply (ero_lb _ _ _ M f p q)|]. apply L. eapply nb_dom; eauto.
Qed.

Lemma dil_ext f g : agree f g -> agree (dil f) (dil g).
Proof.
  intros E. apply below_antisym; apply dil_mono, agree_below; [|apply agree_sym]; exact E.
Qed.

Lemma ero_ext f g : agree f g -> agree (ero f) (ero g).
Proof.
  intros E. apply below_antisym; apply ero_mono, agree_below; [|apply agree_sym]; exact E.
Qed.

(** The closing [ero . dil] lies above the image. *)
Lemma closing_extensive f : below f (ero (dil f)).
Proof.
  intros p Hp. destruct (ero_att _ _ _ M (dil f) p Hp) as [q [Hq ->]].
  apply (dil_ub _ _ _ M); [eapply nb_dom; eauto|]. now apply (nb_sym _ _ _ M).
Qed.

(** The opening [dil . ero] lies below it. *)
Lemma opening_antiextensive f : below (dil (ero f)) f.
Proof.
  intros p Hp. destruct (dil_att _ _ _ M (ero f) p Hp) as [q [Hq ->]].
  apply (ero_lb _ _ _ M); [eapply nb_dom; eauto|]. now apply (nb_sym _ _ _ M).
Qed.

Lemma dil_ero_dil f : agree (dil (ero (dil f))) (dil f).
Proof.
  apply below_antisym.
  - apply opening_antiextensive.
  - apply dil_mono, closing_extensive.
Qed.

Lemma ero_dil_ero f : agree (ero (dil (ero f))) (ero f).
Proof.
  apply below_antisym.
  - apply ero_mono, opening_antiextensive.
  - apply closing_extensive.
Qed.

(** A closing is idempotent. *)
Lemma closing_idempotent f : agree (ero (dil (ero (dil f)))) (ero (dil f)).
Proof. apply ero_ext, dil_ero_dil. Qed.

(** A monotone pointwise map commutes with both filters. *)
Lemma dil_pointwise (s : Z -> Z) f :
  (forall a b, a <= b -> s a <= s b) ->
  agree (dil (fun p => s (f p))) (fun p => s (dil f p)).
Proof.
  intros Hs. apply below_antisym; intros p Hp.
  - destruct (dil_att _ _ _ M (fun p => s (f p)) p Hp) as [q [Hq ->]].
    apply Hs. now apply (dil_ub _ _ _ M).
  - destruct (dil_att _ _ _ M f p Hp) as [q [Hq ->]].
    now apply (dil_ub _ _ _ M (fun p => s (f p))).
Qed.

Lemma ero_pointwise (s : Z -> Z) f :
  (forall a b, a <= b -> s a <= s b) ->
  agree (ero (fun p => s (f p))) (fun p => s (ero f p)).
Proof.
  intros Hs. apply below_antisym; intros p Hp.
  - destruct (ero_att _ _ _ M f p Hp) as [q [Hq ->]].
    now apply (ero_lb _ _ _ M (fun p => s (f p))).
  - destruct (ero_att _ _ _ M (fun p => s (f p)) p Hp) as [q [Hq ->]].
    apply Hs. now apply (ero_lb _ _ _ M).
Qed.

Lemma closing_pointwise (s : Z -> Z) f :
  (forall a b, a <= b -> s a <= s b) ->
  agree (ero (dil (fun p => s (f p)))) (fun p => s (ero (dil f) p)).
Proof.
  intros Hs. eapply agree_trans.
  - apply ero_ext, dil_pointwise, Hs.
  - apply (ero_pointwise s (dil f)), Hs.
Qed.

End OnePair.

(** Two window sizes, the larger neighbourhood being two steps of the
    smaller: the smaller closing leaves the larger closing as it is. *)
Section TwoPairs.

Context {N1 N2 : P -> P -> Prop} {dil1 ero1 dil2 ero2 : (P -> Z) -> P -> Z}
        (M1 : morph N1 dil1 ero1) (M2 : morph N2 dil2 ero2)
        (two_steps : forall p q, dom p -> N2 p q <-> exists m, N1 p m /\ N1 m q).

Lemma dil_two_steps f : agree (dil2 f) (dil1 (dil1 f)).
Proof.
  apply below_antisym; intros p Hp.
  - destruct (dil_att _ _ _ M2 f p Hp) as [q [Hq ->]].
    apply two_steps in Hq; [|assumption]. destruct Hq as [m [Hpm Hmq]].
    assert (Hm : dom m) by (eapply (nb_dom _ _ _ M1); eauto).
    etransitivity; [apply (dil_ub _ _ _ M1 f m q Hm Hmq)|].
    now apply (dil_ub _ _ _ M1 (dil1 f)).
  - destruct (dil_att _ _ _ M1 (dil1 f) p Hp) as [m [Hpm ->]].
    assert (Hm : dom m) by (eapply (nb_dom _ _ _ M1); eauto).
    destruct (dil_att _ _ _ M1 f m Hm) as [q [Hmq ->]].
    apply (dil_ub _ _ _ M2); [assumption|]. apply two_steps; eauto.
Qed.

Lemma ero_two_steps f : agree (ero2 f) (ero1 (ero1 f)).
Proof.
  apply below_antisym; intros p Hp.
  - destruct (ero_att _ _ _ M1 (ero1 f) p Hp) as [m [Hpm ->]].
    assert (Hm : dom m) by (eapply (nb_dom _ _ _ M1); eauto).
    destruct (ero_att _ _ _ M1 f m Hm) as [q [Hmq ->]].
    apply (ero_lb _ _ _ M2); [assumption|]. apply two_steps; eauto.
  - destruct (ero_att _ _ _ M2 f p Hp) as [q [Hq ->]].
    apply two_steps in Hq; [|assumption]. destruct Hq as [m [Hpm Hmq]].
    assert (Hm : dom m) by (eapply (nb_dom _ _ _ M1); eauto).
    etransitivity; [apply (ero_lb _ _ _ M1 (ero1 f) p m Hp Hpm)|].
    now apply (ero_lb _ _ _ M1 f m q).
Qed.

Lemma closing_absorbs f : agree (ero1 (dil1 (ero2 f))) (ero2 f).
Proof.
  eapply agree_trans; [apply (ero_ext M1), (dil_ext M1), ero_two_steps|].
  eapply agree_trans; [apply (ero_dil_ero M1)|].
  apply agree_sym, ero_two_steps.
Qed.

(** The cleanup on pixel functions: close with the large window, snap, close
    with the small window, snap. *)
Definition cleanup (s : Z -> Z) (f : P -> Z) : P -> Z :=
  fun p => s (ero1 (dil1 (fun q => s (ero2 (dil2 f) q))) p).

Context (s : Z -> Z)
        (s_mono : forall a b, a <= b -> s a <= s b)
        (s_idem : forall a, s (s a) = s a).

Lemma cleanup_ext f g : agree f g -> agree (cleanup s f) (cleanup s g).
Proof.
  intros E. unfold cleanup. apply agree_post.
  apply (ero_ext M1), (dil_ext M1), agree_post, (ero_ext M2), (dil_ext M2), E.
Qed.

(** The second, small closing is absorbed: the cleanup is the large closing
    followed by one snap. *)
Lemma cleanup_closing f : agree (cleanup s f) (fun p => s (ero2 (dil2 f) p)).
Proof.
  unfold cleanup.
  assert (E : agree (ero1 (dil1 (fun q => s (ero2 (dil2 f) q))))
                    (fun q => s (ero2 (dil2 f) q))).
  { eapply agree_trans.
    - apply (ero_ext M1), (dil_ext M1), agree_sym, (ero_pointwise M2 s (dil2 f)), s_mono.
    - eapply agree_trans; [apply closing_absorbs|].
      apply (ero_pointwise M2 s (dil2 f)), s_mono. }
  intros p Hp. cbn. rewrite (E p Hp). apply s_idem.
Qed.

Lemma cleanup_idempotent f : agree (cleanup s (cleanup s f)) (cleanup s f).
Proof.
  eapply agree_trans; [apply cleanup_closing|].
  eapply agree_trans; [|apply agree_sym, cleanup_closing].
  assert (E : agree (ero2 (dil2 (cleanup s f))) (fun p => s (ero2 (dil2 f) p))).
  { eapply agree_trans; [apply (ero_ext M2), (dil_ext M2), cleanup_closing|].
    eapply agree_trans; [apply (ero_ext M2), (dil_ext M2), agree_sym,
                          (closing_pointwise M2 s f), s_mono|].
    eapply agree_trans; [apply (closing_idempotent M2)|].
    apply (closing_pointwise M2 s f), s_mono. }
  intros p Hp. cbn. rewrite (E p Hp). apply s_idem.
Qed.

End TwoPairs.

End Adjunction.

End Morphology.

(** ** The rank filters of iconGen.py *)

Module IconFacts.

Import Icon Morphology.

(** [j] is a pixel of an axis of [n] pixels, at most [r] away from [i]. *)
Definition near (r n i j : nat) : Prop := (j < n /\ j <= i + r /\ i <= j + r)%nat.

Definition inside (w h : nat) (p : nat * nat) : Prop := (fst p < w /\ snd p < h)%nat.

Definition neighbour (r w h : nat) (p q : nat * nat) : Prop :=
  near r w (fst p) (fst q) /\ near r h (snd p) (snd q).

(** The window operator on functions of a pixel. *)
Definition filter_at (op : Z -> Z -> Z) (w h r : nat) (f : nat * nat -> Z) (p : nat * nat) : Z :=
  window_op op w h r (fun x y => f (x, y)) (fst p) (snd p).

Lemma taps_spec n r i j : (i < n)%nat -> In j (taps n r i) <-> near r n i j.
Proof.
  intros Hi. unfold taps, tap, near. rewrite List.in_map_iff. split.
  - intros [k [<- Hk]]. apply in_seq in Hk. lia.
  - intros (Hj & Hhi & Hlo). exists (j + r - i)%nat. split; [lia|].
    apply in_seq. lia.
Qed.

Lemma window_spec w h r x y x' y' :
  (x < w)%nat -> (y < h)%nat ->
  In (x', y') (window w h r x y) <-> near r w x x' /\ near r h y y'.
Proof.
  intros Hx Hy. unfold window. rewrite in_flat_map. split.
  - intros [y0 [Hy0 Hin]]. apply List.in_map_iff in Hin.
    destruct Hin as [x0 [E Hx0]]. inversion E; subst.
    split; [now apply taps_spec in Hx0 | now apply taps_spec in Hy0].
  - intros [Hnx Hny]. exists y'. split; [now apply taps_spec|].
    apply (in_map (fun x0 => (x0, y'))). now apply taps_spec.
Qed.

Lemma fold_left_selects (op : Z -> Z -> Z) :
  (forall a b, op a b = a \/ op a b = b) ->
  forall vs a, In (fold_left op vs a) (a :: vs).
Proof.
  intros Hop. induction vs as [|v vs IH]; intros a; cbn [fold_left].
  - now left.
  - destruct (IH (op a v)) as [E | Hin].
    + rewrite <- E. destruct (Hop a v) as [-> | ->]; [now left | right; now left].
    + right. now right.
Qed.

Lemma fold_left_max_ub vs : forall a v, In v (a :: vs) -> (v <= fold_left Z.max vs a)%Z.
Proof.
  induction vs as [|u vs IH]; intros a v Hin; cbn [fold_left].
  - destruct Hin as [-> | []]. lia.
  - destruct Hin as [-> | [-> | Hin]].
    + etransitivity; [|apply IH; now left]. lia.
    + etransitivity; [|apply IH; now left]. lia.
    + apply IH. now right.
Qed.

Lemma fold_left_min_lb vs : forall a v, In v (a :: vs) -> (fold_left Z.min vs a <= v)%Z.
Proof.
  induction vs as [|u vs IH]; intros a v Hin; cbn [fold_left].
  - destruct Hin as [-> | []]. lia.
  - destruct Hin as [-> | [-> | Hin]].
    + etransitivity; [apply IH; now left|]. lia.
    + etransitivity; [apply IH; now left|]. lia.
    + apply IH. now right.
Qed.

Lemma extremum_selects op vs :
  (forall a b, op a b = a \/ op a b = b) -> vs <> [] -> In (extremum op vs) vs.
Proof.
  intros Hop Hne. destruct vs as [|v vs]; [congruence|]. now apply fold_left_selects.
Qed.

Lemma extremum_max_ub vs v : In v vs -> (v <= extremum Z.max vs)%Z.
Proof. destruct vs as [|a vs]; [intros []|]. apply fold_left_max_ub. Qed.

Lemma extremum_min_lb vs v : In v vs -> (extremum Z.min vs <= v)%Z.
Proof. destruct vs as [|a vs]; [intros []|]. apply fold_left_min_lb. Qed.

Lemma near_refl r n i : (i < n)%nat -> near r n i i.
Proof. unfold near. lia. Qed.

Lemma near_sym r n i j : (i < n)%nat -> near r n i j -> near r n j i.
Proof. unfold near. lia. Qed.

(** Two steps of radius [1] reach exactly the pixels within radius [2]. *)
Lemma near_two_steps n i j :
  (i < n)%nat -> near 2 n i j <-> exists m, near 1 n i m /\ near 1 n m j.
Proof.
  intros Hi. unfold near. split.
  - intros (Hj & Hhi & Hlo).
    destruct (lt_eq_lt_dec i j) as [[Hlt | Heq] | Hgt].
    + exists (i + 1)%nat. lia.
    + exists i. lia.
    + exists (i - 1)%nat. lia.
  - intros [m Hm]. lia.
Qed.

Lemma filter_at_selects op w h r f p :
  (forall a b, op a b = a \/ op a b = b) -> inside w h p ->
  exists q, neighbour r w h p q /\ filter_at op w h r f p = f q.
Proof.
  intros Hop [Hx Hy]. destruct p as [x y]. cbn [fst snd] in *.
  unfold filter_at, window_op. cbn [fst snd].
  set (vs := map _ (window w h r x y)).
  assert (Hne : vs <> []).
  { assert (Hin : In (f (x, y)) vs).
    { unfold vs. apply List.in_map_iff. exists (x, y). split; [reflexivity|].
      apply window_spec; auto using near_refl. }
    intros E. rewrite E in Hin. destruct Hin. }
  pose proof (extremum_selects op vs Hop Hne) as Hin.
  unfold vs in Hin at 2. apply List.in_map_iff in Hin.
  destruct Hin as [[x' y'] [E Hq]]. cbn [fst snd] in E.
  exists (x', y'). split; [|now rewrite E].
  now apply window_spec in Hq.
Qed.

Lemma in_window_values w h r (f : nat * nat -> Z) p q :
  inside w h p -> neighbour r w h p q ->
  In (f q) (map (fun q' => f (fst q', snd q')) (window w h r (fst p) (snd p))).
Proof.
  intros [Hx Hy] Hq. destruct q as [x' y'].
  apply List.in_map_iff. exists (x', y'). split; [reflexivity|].
  now apply window_spec.
Qed.

(** The max and min filters of one radius form a dilation/erosion pair. *)
Lemma window_morph w h r :
  morph (inside w h) (neighbour r w h) (filter_at Z.max w h r) (filter_at Z.min w h r).
Proof.
  constructor.
  - intros p q _ [[Hx _] [Hy _]]. now split.
  - intros p q [Hx Hy] [Hnx Hny]. split; now apply near_sym.
  - intros f p q Hp Hq. apply extremum_max_ub. now apply in_window_values.
  - intros f p Hp. apply filter_at_selects; [|assumption]. intros a b. lia.
  - intros f p q Hp Hq. apply extremum_min_lb. now apply in_window_values.
  - intros f p Hp. apply filter_at_selects; [|assumption]. intros a b. lia.
Qed.

Lemma neighbour_two_steps w h p q :
  inside w h p ->
  neighbour 2 w h p q <-> exists m, neighbour 1 w h p m /\ neighbour 1 w h m q.
Proof.
  intros [Hx Hy]. unfold neighbour. split.
  - intros [Hnx Hny].
    apply near_two_steps in Hnx; [|assumption]. destruct Hnx as [mx [Hx1 Hx2]].
    apply near_two_steps in Hny; [|assumption]. destruct Hny as [my [Hy1 Hy2]].
    exists (mx, my). cbn [fst snd]. tauto.
  - intros [[mx my] [[Hx1 Hy1] [Hx2 Hy2]]]. cbn [fst snd] in *.
    split; apply near_two_steps; eauto.
Qed.

(** The pixels of a band, as a function of the pixel. *)
Definition px (m : grid Z) (p : nat * nat) : Z := get 0%Z m (fst p) (snd p).

(** Both snaps, in the order of the first pass. *)
Definition snap (v : Z) : Z := snap_high (snap_low v).

Lemma snap_commutes v : snap_low (snap_high v) = snap v.
Proof. unfold snap, snap_low, snap_high. repeat (case Z.ltb_spec || case Z.leb_spec); lia. Qed.

Lemma snap_monotone a b : (a <= b)%Z -> (snap a <= snap b)%Z.
Proof.
  unfold snap, snap_low, snap_high. repeat (case Z.ltb_spec || case Z.leb_spec); lia.
Qed.

Lemma snap_idempotent a : snap (snap a) = snap a.
Proof. unfold snap, snap_low, snap_high. repeat (case Z.ltb_spec || case Z.leb_spec); lia. Qed.

Lemma snap_values v : snap v = 0%Z \/ snap v = 255%Z \/ (8 <= snap v <= 199)%Z.
Proof. unfold snap, snap_low, snap_high. repeat (case Z.ltb_spec || case Z.leb_spec); lia. Qed.

Lemma width_of_empty {A} (g : grid A) : height g = 0%nat -> width g = 0%nat.
Proof. destruct g; [reflexivity | discriminate]. Qed.

Lemma rank_filter_rect op size m : rect (width m) (height m) (rank_filter op size m).
Proof. apply rect_tabulate. Qed.

Lemma rank_filter_height op size m : height (rank_filter op size m) = height m.
Proof. apply height_tabulate. Qed.

Lemma rank_filter_width op size m : width (rank_filter op size m) = width m.
Proof.
  destruct (Nat.eq_dec (height m) 0) as [E | NE].
  - rewrite (width_of_empty m E).
    apply width_of_empty. now rewrite rank_filter_height.
  - apply width_tabulate. lia.
Qed.

Lemma rank_filter_px op size m :
  agree (inside (width m) (height m))
        (px (rank_filter op size m))
        (filter_at op (width m) (height m) (size / 2) (px m)).
Proof. intros [x y] [Hx Hy]. unfold px, rank_filter. cbn [fst snd] in *. now rewrite get_tabulate. Qed.

Lemma map_px_height {A B} (f : A -> B) (g : grid A) : height (map_px f g) = height g.
Proof. unfold height, map_px. apply length_map. Qed.

Lemma map_px_width {A B} (f : A -> B) (g : grid A) : width (map_px f g) = width g.
Proof. unfold width, map_px. destruct g as [|row g]; cbn; [reflexivity | apply length_map]. Qed.

Lemma map_px_px (f : Z -> Z) w h m :
  rect w h m -> agree (inside w h) (px (map_px f m)) (fun p => f (px m p)).
Proof. intros Hr [x y] [Hx Hy]. unfold px. cbn [fst snd] in *. now apply get_map_px with (w := w) (h := h). Qed.

(** A band together with its size: a [w] by [h] rectangle whose pixels are
    those of [f]. *)
Definition renders (w h : nat) (m : grid Z) (f : nat * nat -> Z) : Prop :=
  width m = w /\ height m = h /\ rect w h m /\ agree (inside w h) (px m) f.

Lemma renders_self m : rect (width m) (height m) m -> renders (width m) (height m) m (px m).
Proof.
  intros Hr. split; [reflexivity|]. split; [reflexivity|].
  split; [exact Hr | apply agree_refl].
Qed.

Lemma renders_rank_filter op size w h m f :
  width m = w -> height m = h -> agree (inside w h) (px m) f ->
  (forall a b, op a b = a \/ op a b = b) ->
  renders w h (rank_filter op size m) (filter_at op w h (size / 2) f).
Proof.
  intros <- <- E Hop. split; [apply rank_filter_width|].
  split; [apply rank_filter_height|]. split; [apply rank_filter_rect|].
  eapply agree_trans; [apply rank_filter_px|].
  intros p Hp. destruct (filter_at_selects op _ _ (size / 2) (px m) p Hop Hp) as [q [Hq Eq1]].
  unfold filter_at, window_op. f_equal.
  apply map_ext_in. intros [x' y'] Hin. cbn [fst snd].
  destruct p as [x y], Hp as [Hx Hy]. cbn [fst snd] in *.
  apply window_spec in Hin; [|assumption..].
  apply (E (x', y')). destruct Hin as [[Hx' _] [Hy' _]]. now split.
Qed.

Lemma renders_map_px (s : Z -> Z) w h m f :
  renders w h m f -> renders w h (map_px s m) (fun p => s (f p)).
Proof.
  intros (Hw & Hh & Hr & E). split; [now rewrite map_px_width|].
  split; [now rewrite map_px_height|]. split; [now apply rect_map_px|].
  eapply agree_trans; [now apply map_px_px|]. now apply agree_post.
Qed.

Lemma renders_agree w h m f g :
  renders w h m f -> agree (inside w h) f g -> renders w h m g.
Proof.
  intros (Hw & Hh & Hr & E) Efg. repeat (split; [assumption|]).
  now apply agree_trans with f.
Qed.

Lemma renders_filtered op size w h m f :
  renders w h m f -> (forall a b, op a b = a \/ op a b = b) ->
  renders w h (rank_filter op size m) (filter_at op w h (size / 2) f).
Proof. intros (Hw & Hh & _ & E) Hop. now apply renders_rank_filter. Qed.

Lemma max_selects a b : Z.max a b = a \/ Z.max a b = b.
Proof. lia. Qed.

Lemma min_selects a b : Z.min a b = a \/ Z.min a b = b.
Proof. lia. Qed.

(** The cleanup on pixel functions, with the windows of [clean_mask]: radius
    [2] for the 5 by 5 pass and radius [1] for the 3 by 3 pass. *)
Definition cleanup_fn (w h : nat) (f : nat * nat -> Z) : nat * nat -> Z :=
  cleanup (dil1 := filter_at Z.max w h 1) (ero1 := filter_at Z.min w h 1)
          (dil2 := filter_at Z.max w h 2) (ero2 := filter_at Z.min w h 2) snap f.

(** Stage [m]: the 5 by 5 closing. *)
Lemma stage_m_renders m :
  renders (width m) (height m) (stage_m m)
    (filter_at Z.min (width m) (height m) 2 (filter_at Z.max (width m) (height m) 2 (px m))).
Proof.
  unfold stage_m, MinFilter, MaxFilter.
  apply (renders_filtered Z.min 5); [|apply min_selects].
  apply (renders_rank_filter Z.max 5); auto using max_selects, agree_refl.
Qed.

(** Stage [a]: the first snap. *)
Lemma stage_a_renders m :
  renders (width m) (height m) (stage_a m)
    (fun p => snap (filter_at Z.min (width m) (height m) 2
                      (filter_at Z.max (width m) (height m) 2 (px m)) p)).
Proof.
  pose proof (stage_m_renders m) as Hm.
  apply (renders_map_px snap_low) in Hm.
  apply (renders_map_px snap_high) in Hm.
  exact Hm.
Qed.

(** Stage [m2]: the 3 by 3 closing. *)
Lemma stage_m2_renders m :
  renders (width m) (height m) (stage_m2 m)
    (filter_at Z.min (width m) (height m) 1
       (filter_at Z.max (width m) (height m) 1
          (fun p => snap (filter_at Z.min (width m) (height m) 2
                            (filter_at Z.max (width m) (height m) 2 (px m)) p)))).
Proof.
  pose proof (stage_a_renders m) as Ha.
  apply (renders_filtered Z.max 3) in Ha; [|apply max_selects].
  apply (renders_filtered Z.min 3) in Ha; [|apply min_selects].
  exact Ha.
Qed.

(** Stage [a2], the mask [clean_mask] returns. *)
Lemma clean_mask_renders m :
  renders (width m) (height m) (clean_mask m) (cleanup_fn (width m) (height m) (px m)).
Proof.
  pose proof (stage_m2_renders m) as Hm2.
  apply (renders_map_px snap_high) in Hm2.
  apply (renders_map_px snap_low) in Hm2.
  unfold clean_mask, stage_a2.
  refine (renders_agree _ _ _ _ _ Hm2 _).
  intros p _. cbn beta. rewrite snap_commutes.
  unfold cleanup_fn, cleanup. reflexivity.
Qed.

Lemma cleanup_fn_idempotent w h f :
  agree (inside w h) (cleanup_fn w h (cleanup_fn w h f)) (cleanup_fn w h f).
Proof.
  unfold cleanup_fn.
  apply (cleanup_idempotent (inside w h) (window_morph w h 1) (window_morph w h 2)).
  - intros p q Hp. now apply neighbour_two_steps.
  - apply snap_monotone.
  - apply snap_idempotent.
Qed.

Lemma cleanup_fn_ext w h f g :
  agree (inside w h) f g -> agree (inside w h) (cleanup_fn w h f) (cleanup_fn w h g).
Proof.
  unfold cleanup_fn.
  apply (cleanup_ext (inside w h) (window_morph w h 1) (window_morph w h 2)).
Qed.

(** The 3 by 3 pass changes nothing: the cleaned mask is the 5 by 5 closing,
    snapped once. *)
Lemma cleanup_fn_closing w h f :
  agree (inside w h) (cleanup_fn w h f)
        (fun p => snap (filter_at Z.min w h 2 (filter_at Z.max w h 2 f) p)).
Proof.
  unfold cleanup_fn.
  apply (cleanup_closing (inside w h) (window_morph w h 1) (window_morph w h 2)).
  - intros p q Hp. now apply neighbour_two_steps.
  - apply snap_monotone.
  - apply snap_idempotent.
Qed.

End IconFacts.

(** ** clean_mask *)

Module CleanMask.

Import Icon Morphology IconFacts.

Lemma map_px_compose {A B C} (f : B -> C) (g : A -> B) (m : grid A) :
  map_px f (map_px g m) = map_px (fun v => f (g v)) m.
Proof.
  unfold map_px. rewrite map_map. apply map_ext. intros row. apply map_map.
Qed.

(** What a snapped pixel can hold. *)
Definition snapped (v : Z) : Prop := v = 0%Z \/ v = 255%Z \/ (8 <= v <= 199)%Z.

Lemma snapped_uint8 v : snapped v -> is_uint8 v.
Proof. unfold snapped, is_uint8. lia. Qed.

Lemma get_uint8 (m : grid Z) x y : all_px is_uint8 m -> is_uint8 (get 0%Z m x y).
Proof.
  intros Hall. unfold get, all_px in *. rewrite List.Forall_forall in Hall.
  destruct (nth_in_or_default y m []) as [Hin | ->].
  - specialize (Hall _ Hin). rewrite List.Forall_forall in Hall.
    destruct (nth_in_or_default x (nth y m []) 0%Z) as [Hin' | ->].
    + now apply Hall.
    + unfold is_uint8. lia.
  - destruct x; cbn; unfold is_uint8; lia.
Qed.

(** A rank filter only ever writes a value it read. *)
Lemma rank_filter_all_px (P : Z -> Prop) op size m :
  (forall a b, op a b = a \/ op a b = b) ->
  (forall x y, P (get 0%Z m x y)) ->
  all_px P (rank_filter op size m).
Proof.
  intros Hop Hm. unfold rank_filter. apply all_px_tabulate. intros x y Hx Hy.
  destruct (filter_at_selects op (width m) (height m) (size / 2) (px m) (x, y) Hop)
    as [[x' y'] [_ E]]; [now split|].
  unfold filter_at, px in E. cbn [fst snd] in E.
  change (window_op op (width m) (height m) (size / 2) (fun x0 y0 => get 0%Z m x0 y0) x y)
    with (window_op op (width m) (height m) (size / 2) (get 0%Z m) x y) in E.
  rewrite E. apply Hm.
Qed.

Lemma MaxFilter_uint8 size m : all_px is_uint8 m -> all_px is_uint8 (MaxFilter size m).
Proof.
  intros Hm. apply rank_filter_all_px; [apply max_selects|].
  intros x y. now apply get_uint8.
Qed.

Lemma MinFilter_uint8 size m : all_px is_uint8 m -> all_px is_uint8 (MinFilter size m).
Proof.
  intros Hm. apply rank_filter_all_px; [apply min_selects|].
  intros x y. now apply get_uint8.
Qed.

Lemma stage_a_snapped m : all_px snapped (stage_a m).
Proof.
  unfold stage_a. rewrite map_px_compose. apply all_px_map_px.
  intros v. apply snap_values.
Qed.

Lemma stage_a2_snapped m : all_px snapped (stage_a2 m).
Proof.
  unfold stage_a2. rewrite map_px_compose. apply all_px_map_px.
  intros v. rewrite snap_commutes. apply snap_values.
Qed.

Lemma all_px_impl {A} (P Q : A -> Prop) (g : grid A) :
  (forall v, P v -> Q v) -> all_px P g -> all_px Q g.
Proof.
  intros HPQ Hg. unfold all_px in *. eapply List.Forall_impl; [|exact Hg].
  cbn. intros row Hrow. eapply List.Forall_impl; [|exact Hrow]. exact HPQ.
Qed.

End CleanMask.

(** * The claims about the icon mask *)

Import Icon Morphology IconFacts CleanMask.

(** C4. Cleanup idempotence: cleaning an already cleaned mask changes
    nothing, [clean_mask (clean_mask m) = clean_mask m] for every mask [m]. *)
Theorem clean_mask_idempotent (m : grid Z) : clean_mask (clean_mask m) = clean_mask m.
Proof.
  destruct (clean_mask_renders m) as (Hw & Hh & Hr & E).
  destruct (clean_mask_renders (clean_mask m)) as (_ & _ & Hr' & E').
  rewrite Hw, Hh in Hr', E'.
  apply (grid_ext 0%Z (width m) (height m)); [assumption..|].
  intros x y Hx Hy.
  assert (Hp : inside (width m) (height m) (x, y)) by now split.
  change (px (clean_mask (clean_mask m)) (x, y) = px (clean_mask m) (x, y)).
  rewrite (E' _ Hp), (E _ Hp).
  rewrite (cleanup_fn_ext _ _ _ _ E _ Hp).
  now apply cleanup_fn_idempotent.
Qed.

(** C9. Every pixel of the mask returned by [clean_mask] is [0], [255] or lies
    in [8..199]: no pixel holds a value in [1..7] or in [200..254]. *)
Theorem clean_mask_values (m : grid Z) :
  all_px (fun v => v = 0 \/ v = 255 \/ 8 <= v <= 199)%Z (clean_mask m).
Proof. apply stage_a2_snapped. Qed.

(** ** The composite of make_foreground_png_solid *)

Module Composite.

Lemma OUT_pos : (0 < Icon.OUT)%nat.
Proof. unfold Icon.OUT. lia. Qed.

Lemma clean_mask_shape w h m :
  rect w h m -> (0 < h)%nat ->
  rect w h (clean_mask m) /\ width (clean_mask m) = w /\ height (clean_mask m) = h.
Proof.
  intros Hr Hh.
  destruct (clean_mask_renders m) as (Hw' & Hh' & Hr' & _).
  rewrite (rect_width w h m Hr Hh) in *. rewrite (rect_height w h m Hr) in *.
  auto.
Qed.

Section WithImaging.

Context `{L : Imaging} (Hres : resize_to_size L).

Lemma make_arc_mask_rect out_size scale stroke_w :
  rect out_size out_size (make_arc_mask out_size scale stroke_w).
Proof. unfold make_arc_mask. cbv zeta. apply Hres. Qed.

(** [putalpha] succeeds, and every pixel of the composite is the white of the
    canvas with the cleaned mask as its alpha. *)
Lemma foreground_pixels stroke_w :
  exists img,
    foreground_image stroke_w = Some img /\
    rect OUT OUT img /\
    forall x y, (x < OUT)%nat -> (y < OUT)%nat ->
      get transparent_black img x y =
      RGBA 255 255 255 (get 0%Z (clean_mask (make_arc_mask OUT 10 stroke_w)) x y).
Proof.
  unfold foreground_image. cbv zeta.
  destruct (clean_mask_shape OUT OUT _ (make_arc_mask_rect OUT 10 stroke_w) OUT_pos)
    as (Hr & Hw & Hh).
  set (mask := clean_mask (make_arc_mask OUT 10 stroke_w)) in *.
  assert (Hfw : width (new OUT OUT (RGBA 255 255 255 255)) = OUT)
    by apply width_tabulate, OUT_pos.
  assert (Hfh : height (new OUT OUT (RGBA 255 255 255 255)) = OUT)
    by apply height_tabulate.
  unfold putalpha, same_size. rewrite Hfw, Hfh, Hw, Hh, Nat.eqb_refl. cbn [andb].
  eexists. split; [reflexivity|]. split; [apply rect_tabulate|].
  intros x y Hx Hy. rewrite get_tabulate by assumption. cbv zeta.
  unfold new. rewrite get_tabulate by assumption. reflexivity.
Qed.

End WithImaging.

End Composite.

(** ** A reference implementation of the Pillow interface

    Nearest-neighbour resampling, a box blur with replicated edges, stamped
    discs for strokes and ellipses, and the raw bytes as the encoding: simple
    stand-ins that meet what the results below assume of Pillow. *)

Module Reference.

Import Icon IconFacts.

Definition resize_nearest (size : nat * nat) (src : grid Z) : grid Z :=
  tabulate (fst size) (snd size)
    (fun x y => get 0%Z src (x * width src / fst size) (y * height src / snd size)).

Definition total (vs : list Z) : Z := fold_right Z.add 0%Z vs.

(** The rounded mean of [f] over the window of radius [k] around [(x, y)]. *)
Definition box_mean (k w h : nat) (f : nat -> nat -> Z) (x y : nat) : Z :=
  let vs := map (fun p => f (fst p) (snd p)) (window w h k x y) in
  let n := Z.of_nat (length vs) in
  ((total vs + n / 2) / n)%Z.

Definition box_blur (radius : R) (img : grid rgba) : grid rgba :=
  let k := Z.to_nat (Zfloor radius) in
  let w := width img in
  let h := height img in
  let band b x y := box_mean k w h (fun x' y' => channel b (get transparent_black img x' y')) x y in
  tabulate w h (fun x y => RGBA (band Red x y) (band Green x y) (band Blue x y) (band Alpha x y)).

Definition within (c : R * R) (r : R) (x y : nat) : bool :=
  if Rle_dec ((INR x - fst c) ^ 2 + (INR y - snd c) ^ 2) (r ^ 2) then true else false.

Definition stamp (hit : nat -> nat -> bool) (fill : Z) (canvas : grid Z) : grid Z :=
  tabulate (width canvas) (height canvas)
    (fun x y => if hit x y then fill else get 0%Z canvas x y).

Definition stamp_line (points : list (R * R)) (fill : Z) (w : R) (canvas : grid Z) : grid Z :=
  stamp (fun x y => existsb (fun c => within c (w / 2) x y) points) fill canvas.

Definition stamp_ellipse (box : R * R * R * R) (fill : Z) (canvas : grid Z) : grid Z :=
  let '(x0, y0, x1, y1) := box in
  stamp (fun x y =>
           if Rle_dec (((2 * INR x - (x0 + x1)) * (y1 - y0)) ^ 2
                       + ((2 * INR y - (y0 + y1)) * (x1 - x0)) ^ 2)
                      (((x1 - x0) * (y1 - y0)) ^ 2)
           then true else false) fill canvas.

Definition raw_bytes (img : grid rgba) : list Z :=
  flat_map (flat_map (fun p => [red p; green p; blue p; alpha p])) img.

#[local] Instance reference : Imaging := {
  draw_line := stamp_line;
  draw_ellipse := stamp_ellipse;
  resize_lanczos := resize_nearest;
  gaussian_blur := box_blur;
  png_encode := raw_bytes
}.

Lemma reference_resize : resize_to_size reference.
Proof. intros w h src. apply rect_tabulate. Qed.

Lemma total_flat vs c : (forall v, In v vs -> v = c) -> total vs = (c * Z.of_nat (length vs))%Z.
Proof.
  induction vs as [|v vs IH]; intros Hc; cbn [total fold_right length].
  - lia.
  - rewrite (Hc v) by now left. fold (total vs). rewrite IH by (intros u Hu; apply Hc; now right).
    lia.
Qed.

Lemma box_mean_flat k w h f c x y :
  (forall x' y', (x' < w)%nat -> (y' < h)%nat -> f x' y' = c) ->
  (x < w)%nat -> (y < h)%nat -> box_mean k w h f x y = c.
Proof.
  intros Hf Hx Hy. unfold box_mean. cbv zeta.
  set (vs := map _ (window w h k x y)).
  assert (Hall : forall v, In v vs -> v = c).
  { intros v Hin. unfold vs in Hin. apply List.in_map_iff in Hin.
    destruct Hin as [[x' y'] [<- Hq]]. cbn [fst snd].
    apply window_spec in Hq; [|assumption..].
    destruct Hq as [[Hx' _] [Hy' _]]. now apply Hf. }
  assert (Hpos : (0 < Z.of_nat (length vs))%Z).
  { assert (Hin : In (f x y) vs).
    { unfold vs. apply List.in_map_iff. exists (x, y). split; [reflexivity|].
      apply window_spec; auto using near_refl. }
    destruct vs; [destruct Hin | cbn [length]; lia]. }
  rewrite (total_flat vs c Hall).
  set (n := Z.of_nat (length vs)) in *.
  rewrite Z.div_add_l by lia.
  rewrite (Z.div_small (n / 2) n); [lia|].
  split; [apply Z.div_pos; lia | apply Z.div_lt_upper_bound; lia].
Qed.

Lemma reference_blur : blur_normalised reference.
Proof.
  intros radius w h img Hr. cbn [gaussian_blur reference]. unfold box_blur. cbv zeta.
  rewrite (rect_height w h img Hr).
  destruct (Nat.eq_dec h 0) as [-> | Hh].
  - split; [split; [reflexivity | constructor]|]. intros b c _ _ x y _ Hy. lia.
  - rewrite (rect_width w h img Hr) by lia.
    split; [apply rect_tabulate|].
    intros b c _ Hflat x y Hx Hy. rewrite get_tabulate by assumption.
    destruct b; cbn [channel red green blue alpha]; now apply box_mean_flat.
Qed.

Lemma get_rgba_uint8 (img : grid rgba) x y :
  all_px rgba_uint8 img -> rgba_uint8 (get transparent_black img x y).
Proof.
  intros Hall. unfold get.
  assert (H0 : rgba_uint8 transparent_black)
    by (unfold rgba_uint8, is_uint8, transparent_black; cbn; lia).
  assert (Hrow : Forall rgba_uint8 (nth y img [])).
  { destruct (nth_in_or_default y img []) as [Hin | ->]; [|constructor].
    unfold all_px in Hall. rewrite List.Forall_forall in Hall. now apply Hall. }
  destruct (nth_in_or_default x (nth y img []) transparent_black) as [Hin | ->]; [|exact H0].
  rewrite List.Forall_forall in Hrow. now apply Hrow.
Qed.

Lemma total_range vs :
  (forall v, In v vs -> (0 <= v <= 255)%Z) ->
  (0 <= total vs <= 255 * Z.of_nat (length vs))%Z.
Proof.
  induction vs as [|v vs IH]; intros Hc; cbn [total fold_right length].
  - lia.
  - fold (total vs). pose proof (Hc v (or_introl eq_refl)).
    pose proof (IH (fun u Hu => Hc u (or_intror Hu))). lia.
Qed.

Lemma box_mean_range k w h f x y :
  (forall x' y', (0 <= f x' y' <= 255)%Z) -> (0 <= box_mean k w h f x y <= 255)%Z.
Proof.
  intros Hf. unfold box_mean. cbv zeta.
  set (vs := map _ (window w h k x y)).
  assert (Hall : forall v, In v vs -> (0 <= v <= 255)%Z).
  { intros v Hin. unfold vs in Hin. apply List.in_map_iff in Hin.
    destruct Hin as [[x' y'] [<- _]]. apply Hf. }
  pose proof (total_range vs Hall) as Ht.
  set (n := Z.of_nat (length vs)) in *.
  destruct (Z.eq_dec n 0%Z) as [E | Hn].
  - rewrite E, Z.div_0_r. lia.
  - assert (Hpos : (0 < n)%Z) by (unfold n in *; lia).
    assert (Hhalf : (0 <= n / 2 < n)%Z).
    { split; [apply Z.div_pos; lia | apply Z.div_lt_upper_bound; lia]. }
    split.
    + apply Z.div_pos; lia.
    + assert ((total vs + n / 2) / n < 256)%Z by (apply Z.div_lt_upper_bound; lia). lia.
Qed.

Lemma reference_blur_uint8 : blur_uint8 reference.
Proof.
  intros radius img Himg. cbn [gaussian_blur reference]. unfold box_blur. cbv zeta.
  apply all_px_tabulate. intros x y _ _.
  assert (Hb : forall b x' y',
            (0 <= channel b (get transparent_black img x' y') <= 255)%Z).
  { intros b x' y'. destruct (get_rgba_uint8 img x' y' Himg) as (Hr & Hg & Hbl & Ha).
    destruct b; cbn [channel]; assumption. }
  unfold rgba_uint8, is_uint8. cbn [red green blue alpha].
  repeat split; apply box_mean_range; intros x' y'; apply Hb.
Qed.


End Reference.

(** * The claims about the composited icon *)

Import Composite.

(** C3. Composite correctness: in the image [make_foreground_png_solid]
    composes, a pixel whose cleaned-mask value is [0] has alpha [0], a pixel
    whose cleaned-mask value is [255] has alpha [255] and the foreground
    colour [(255, 255, 255)], and the colour channels are that same white at
    every pixel, whatever the mask holds there. *)
Theorem foreground_composite `{L : Imaging} (Hres : resize_to_size L) (stroke_w : nat) :
  exists img,
    (forall path fs, make_foreground_png_solid path stroke_w fs = Some (save path img fs)) /\
    forall x y, (x < OUT)%nat -> (y < OUT)%nat ->
      let v := get 0%Z (clean_mask (make_arc_mask OUT 10 stroke_w)) x y in
      let p := get transparent_black img x y in
      (v = 0%Z -> alpha p = 0%Z) /\
      (v = 255%Z -> alpha p = 255%Z /\ (red p, green p, blue p) = (255, 255, 255)%Z) /\
      (red p, green p, blue p) = (255, 255, 255)%Z.
Proof.
  destruct (foreground_pixels Hres stroke_w) as (img & Himg & _ & Hpx).
  exists img. split.
  { intros path fs. unfold make_foreground_png_solid. now rewrite Himg. }
  intros x y Hx Hy. cbv zeta. rewrite (Hpx x y Hx Hy). cbn [alpha red green blue].
  repeat split; auto.
Qed.

Lemma foreground_composite_witness :
  resize_to_size Reference.reference /\
  exists img,
    (forall path fs,
       @make_foreground_png_solid Reference.reference path 75 fs
       = Some (@save Reference.reference path img fs)) /\
    forall x y, (x < OUT)%nat -> (y < OUT)%nat ->
      let v := get 0%Z (clean_mask (@make_arc_mask Reference.reference OUT 10 75)) x y in
      let p := get transparent_black img x y in
      (v = 0%Z -> alpha p = 0%Z) /\
      (v = 255%Z -> alpha p = 255%Z /\ (red p, green p, blue p) = (255, 255, 255)%Z) /\
      (red p, green p, blue p) = (255, 255, 255)%Z.
Proof.
  split.
  - exact Reference.reference_resize.
  - exact (@foreground_composite Reference.reference Reference.reference_resize 75%nat).
Defined.

(** C10. In the image [make_foreground_png_solid] composes, the alpha channel
    is the cleaned mask at every pixel, not only where the mask is [0] or
    [255]: [putalpha] replaces the alpha band of the canvas wholesale. *)
Theorem foreground_alpha_is_mask `{L : Imaging} (Hres : resize_to_size L) (stroke_w : nat) :
  exists img,
    (forall path fs, make_foreground_png_solid path stroke_w fs = Some (save path img fs)) /\
    forall x y, (x < OUT)%nat -> (y < OUT)%nat ->
      alpha (get transparent_black img x y)
      = get 0%Z (clean_mask (make_arc_mask OUT 10 stroke_w)) x y.
Proof.
  destruct (foreground_pixels Hres stroke_w) as (img & Himg & _ & Hpx).
  exists img. split.
  { intros path fs. unfold make_foreground_png_solid. now rewrite Himg. }
  intros x y Hx Hy. now rewrite (Hpx x y Hx Hy).
Qed.

Lemma foreground_alpha_is_mask_witness :
  resize_to_size Reference.reference /\
  exists img,
    (forall path fs,
       @make_foreground_png_solid Reference.reference path 75 fs
       = Some (@save Reference.reference path img fs)) /\
    forall x y, (x < OUT)%nat -> (y < OUT)%nat ->
      alpha (get transparent_black img x y)
      = get 0%Z (clean_mask (@make_arc_mask Reference.reference OUT 10 75)) x y.
Proof.
  split.
  - exact Reference.reference_resize.
  - exact (@foreground_alpha_is_mask Reference.reference Reference.reference_resize 75%nat).
Defined.

(** ** Binary32

    Rounding is monotone, it leaves the integers up to [2^24] as they are,
    and the square root is monotone and exact on squares. *)

Module F32Facts.

Import Lqa.
Local Open Scope Q_scope.

Lemma two_nonzero : ~ (2 # 1) == 0.
Proof. discriminate. Qed.

Lemma pow2_pos e : 0 < pow2 e.
Proof. apply Qpower_0_lt. reflexivity. Qed.

Lemma pow2_add a b : pow2 (a + b) == pow2 a * pow2 b.
Proof. apply Qpower_plus, two_nonzero. Qed.

Lemma pow2_le a b : (a <= b)%Z -> pow2 a <= pow2 b.
Proof. intros H. apply Qpower_le_compat_l; [exact H | discriminate]. Qed.

Lemma pow2_lt a b : (a < b)%Z -> pow2 a < pow2 b.
Proof. intros H. apply Qpower_lt_compat_l; [exact H | reflexivity]. Qed.

Lemma pow2_Z n : (0 <= n)%Z -> pow2 n == inject_Z (2 ^ n).
Proof. intros H. symmetry. apply (Zpower_Qpower 2 n H). Qed.

Lemma pow2_opp e : pow2 (- e) == / pow2 e.
Proof. apply Qpower_opp. Qed.

Lemma pow2_cancel e : pow2 e * pow2 (- e) == 1.
Proof. rewrite <- pow2_add. now replace (e + - e)%Z with 0%Z by lia. Qed.

Lemma div_pow2 a e : a / pow2 e == a * pow2 (- e).
Proof. unfold Qdiv. now rewrite pow2_opp. Qed.

Lemma div_pow2_le a b e : a <= b -> a / pow2 e <= b / pow2 e.
Proof.
  intros H. rewrite !div_pow2. apply Qmult_le_compat_r; [exact H|]. apply Qlt_le_weak, pow2_pos.
Qed.

Lemma div_pow2_mul a e : a / pow2 e * pow2 e == a.
Proof.
  rewrite div_pow2, <- Qmult_assoc, (Qmult_comm (pow2 (- e))), pow2_cancel. apply Qmult_1_r.
Qed.

(** ** The binary logarithm *)

Lemma Qmake_mul n d : (n # d) * inject_Z (Zpos d) == inject_Z n.
Proof. unfold Qeq, Qmult, inject_Z. cbn. lia. Qed.

Lemma ilog2_spec a : 0 < a -> pow2 (ilog2 a) <= a /\ a < pow2 (ilog2 a + 1).
Proof.
  intros Ha. destruct a as [n d].
  assert (Hn : (0 < n)%Z) by (unfold Qlt in Ha; cbn in Ha; lia).
  unfold ilog2. cbn [Qnum Qden].
  set (ln := Z.log2 n). set (ld := Z.log2 (Zpos d)).
  pose proof (Z.log2_spec n Hn) as [Hn1 Hn2]. fold ln in Hn1, Hn2.
  pose proof (Z.log2_spec (Zpos d) ltac:(lia)) as [Hd1 Hd2]. fold ld in Hd1, Hd2.
  assert (Hln : (0 <= ln)%Z) by apply Z.log2_nonneg.
  assert (Hld : (0 <= ld)%Z) by apply Z.log2_nonneg.
  pose proof (Qmake_mul n d) as E.
  set (a := n # d) in *. set (D := inject_Z (Zpos d)) in *.
  assert (HD1 : pow2 ld <= D) by (rewrite pow2_Z by lia; unfold D; now rewrite <- Zle_Qle).
  assert (HD2 : D < pow2 (ld + 1)) by (rewrite pow2_Z by lia; unfold D; now rewrite <- Zlt_Qlt).
  assert (HN1 : pow2 ln <= inject_Z n) by (rewrite pow2_Z by lia; now rewrite <- Zle_Qle).
  assert (HN2 : inject_Z n < pow2 (ln + 1)) by (rewrite pow2_Z by lia; now rewrite <- Zlt_Qlt).
  assert (Hup : a < pow2 (ln - ld + 1)).
  { apply (Qmult_lt_r _ _ (pow2 ld) (pow2_pos ld)).
    rewrite <- pow2_add. replace (ln - ld + 1 + ld)%Z with (ln + 1)%Z by lia.
    apply Qle_lt_trans with (a * D); [|now rewrite E].
    apply Qmult_le_l; assumption. }
  assert (Hlo : pow2 (ln - ld - 1) < a).
  { apply (Qmult_lt_r _ _ (pow2 (ld + 1)) (pow2_pos _)).
    rewrite <- pow2_add. replace (ln - ld - 1 + (ld + 1))%Z with ln by lia.
    apply Qle_lt_trans with (a * D); [now rewrite E|].
    apply Qmult_lt_l; assumption. }
  destruct (Qle_bool (pow2 (ln - ld)) a) eqn:Hc.
  - apply Qle_bool_iff in Hc. split; assumption.
  - assert (Hlt : a < pow2 (ln - ld)).
    { apply Qnot_le_lt. intros H. apply Qle_bool_iff in H. congruence. }
    split; [now apply Qlt_le_weak|].
    now replace (ln - ld - 1 + 1)%Z with (ln - ld)%Z by lia.
Qed.

Lemma ilog2_unique a k : pow2 k <= a -> a < pow2 (k + 1) -> ilog2 a = k.
Proof.
  intros H1 H2.
  assert (Ha : 0 < a) by (eapply Qlt_le_trans; [apply pow2_pos | exact H1]).
  destruct (ilog2_spec a Ha) as [H3 H4].
  destruct (Z.lt_trichotomy (ilog2 a) k) as [H | [H | H]]; [|exact H|].
  - exfalso. assert (pow2 (ilog2 a + 1) <= pow2 k) by (apply pow2_le; lia).
    apply (Qlt_irrefl a). eapply Qlt_le_trans; [exact H4|]. eapply Qle_trans; eassumption.
  - exfalso. assert (pow2 (k + 1) <= pow2 (ilog2 a)) by (apply pow2_le; lia).
    apply (Qlt_irrefl a). eapply Qlt_le_trans; [exact H2|]. eapply Qle_trans; eassumption.
Qed.

Lemma ilog2_comp a b : 0 < a -> a == b -> ilog2 a = ilog2 b.
Proof.
  intros Ha E. symmetry. destruct (ilog2_spec a Ha) as [H1 H2].
  apply ilog2_unique; now rewrite <- E.
Qed.

Lemma ilog2_mono a b : 0 < a -> a <= b -> (ilog2 a <= ilog2 b)%Z.
Proof.
  intros Ha Hab.
  assert (Hb : 0 < b) by (eapply Qlt_le_trans; eassumption).
  destruct (ilog2_spec a Ha) as [H1 _]. destruct (ilog2_spec b Hb) as [_ H2].
  destruct (Z_le_gt_dec (ilog2 a) (ilog2 b)) as [H | H]; [exact H|exfalso].
  assert (pow2 (ilog2 b + 1) <= pow2 (ilog2 a)) by (apply pow2_le; lia).
  apply (Qlt_irrefl b). eapply Qlt_le_trans; [exact H2|].
  eapply Qle_trans; [eassumption|]. eapply Qle_trans; eassumption.
Qed.

(** ** Rounding to the nearest integer, ties to even *)

Lemma rne_comp x y : x == y -> rne x = rne y.
Proof.
  intros E. unfold rne. cbv zeta. rewrite <- (Qfloor_comp _ _ E).
  assert (H : Qcompare (x - inject_Z (Qfloor x)) (1 # 2)
              = Qcompare (y - inject_Z (Qfloor x)) (1 # 2)).
  { apply Qcompare_comp; [|reflexivity]. unfold Qminus. apply Qplus_comp; [exact E | reflexivity]. }
  now rewrite H.
Qed.

Lemma rne_Z k : rne (inject_Z k) = k.
Proof.
  unfold rne. rewrite Qfloor_Z.
  assert (H : Qcompare (inject_Z k - inject_Z k) (1 # 2) = Lt).
  { apply Qlt_alt. assert (E : inject_Z k - inject_Z k == 0) by ring. rewrite E. reflexivity. }
  now rewrite H.
Qed.

Lemma rne_mono x y : x <= y -> (rne x <= rne y)%Z.
Proof.
  intros H. pose proof (Qfloor_resp_le _ _ H) as Hf.
  pose proof (Qfloor_le x) as Hx1. pose proof (Qlt_floor x) as Hx2.
  pose proof (Qfloor_le y) as Hy1. pose proof (Qlt_floor y) as Hy2.
  unfold rne.
  destruct (Z.eq_dec (Qfloor x) (Qfloor y)) as [E | N].
  - rewrite <- E in *. set (f := Qfloor x) in *.
    destruct (Qcompare_spec (x - inject_Z f) (1 # 2)) as [Ex | Lx | Gx];
      destruct (Qcompare_spec (y - inject_Z f) (1 # 2)) as [Ey | Ly | Gy];
      try lia; try (destruct (Z.even f); lia); exfalso; lra.
  - assert (Hlt : (Qfloor x + 1 <= Qfloor y)%Z) by lia.
    destruct (Qcompare (x - inject_Z (Qfloor x)) (1 # 2));
      destruct (Qcompare (y - inject_Z (Qfloor y)) (1 # 2));
      try destruct (Z.even (Qfloor x)); try destruct (Z.even (Qfloor y)); lia.
Qed.

Lemma rne_lower k x : inject_Z k <= x -> (k <= rne x)%Z.
Proof. intros H. rewrite <- (rne_Z k). now apply rne_mono. Qed.

Lemma rne_upper k x : x <= inject_Z k -> (rne x <= k)%Z.
Proof. intros H. rewrite <- (rne_Z k). now apply rne_mono. Qed.


(** ** Order *)

Ltac zero_cases :=
  repeat match goal with
    | |- context [Qeq_bool ?q 0] =>
        let E := fresh "E" in
        destruct (Qeq_bool q 0) eqn:E; [apply Qeq_bool_iff in E | apply Qeq_bool_neq in E]
    end.

Lemma fle_trans x y z : fle x y -> fle y z -> fle x z.
Proof.
  destruct x, y, z; cbn [fle fval]; intros H1 H2; try exact I; try contradiction; lra.
Qed.

Lemma fle_opp x y : fle x y -> fle (fopp y) (fopp x).
Proof.
  destruct x as [a| | | |], y as [b| | | |]; cbn [fle fval fopp]; intros H;
    try exact I; try contradiction; zero_cases; cbn [fle fval]; lra.
Qed.

Lemma fle_zero_r x : fle x NZero <-> fle x (Fin 0).
Proof. destruct x; cbn [fle fval]; tauto. Qed.

Lemma fle_zero_l x : fle NZero x <-> fle (Fin 0) x.
Proof. destruct x; cbn [fle fval]; tauto. Qed.

Lemma fle_PInf x : fle x x -> fle x PInf.
Proof. destruct x; cbn [fle fval]; tauto. Qed.

Lemma fle_NInf x : fle x x -> fle NInf x.
Proof. destruct x; cbn [fle fval]; tauto. Qed.

(** ** Packing a significand and an exponent *)

Lemma scaled_le m1 e1 m2 e2 :
  (e1 <= e2)%Z -> (e1 = e2 -> (m1 <= m2)%Z) ->
  ((e1 < e2)%Z -> (m1 <= 2 ^ 24)%Z /\ (2 ^ 23 <= m2)%Z) ->
  inject_Z m1 * pow2 e1 <= inject_Z m2 * pow2 e2.
Proof.
  intros He Heq Hlt. destruct (Z.eq_dec e1 e2) as [E | N].
  - subst e2. apply Qmult_le_compat_r; [|apply Qlt_le_weak, pow2_pos].
    rewrite <- Zle_Qle. now apply Heq.
  - destruct (Hlt ltac:(lia)) as [H1 H2].
    apply Qle_trans with (pow2 24 * pow2 e1).
    + apply Qmult_le_compat_r; [|apply Qlt_le_weak, pow2_pos].
      rewrite pow2_Z by lia. now rewrite <- Zle_Qle.
    + apply Qle_trans with (pow2 23 * pow2 e2).
      * rewrite <- !pow2_add. apply pow2_le. lia.
      * apply Qmult_le_compat_r; [|apply Qlt_le_weak, pow2_pos].
        rewrite pow2_Z by lia. now rewrite <- Zle_Qle.
Qed.

Lemma pack_mono m1 e1 m2 e2 :
  inject_Z m1 * pow2 e1 <= inject_Z m2 * pow2 e2 -> fle (pack m1 e1) (pack m2 e2).
Proof.
  intros H. unfold pack. cbv zeta.
  destruct (Qle_bool (pow2 128) (inject_Z m1 * pow2 e1)) eqn:C1;
    destruct (Qle_bool (pow2 128) (inject_Z m2 * pow2 e2)) eqn:C2; cbn [fle fval]; try exact I.
  - apply Qle_bool_iff in C1.
    assert (C : Qle_bool (pow2 128) (inject_Z m2 * pow2 e2) = true)
      by (apply Qle_bool_iff; eapply Qle_trans; eassumption).
    congruence.
  - apply (proj2 (Qred_le _ _)). exact H.
Qed.

Lemma pack_value m e v :
  inject_Z m * pow2 e == v -> v < pow2 128 -> pack m e = Fin (Qred v).
Proof.
  intros E Hv. unfold pack. cbv zeta.
  destruct (Qle_bool (pow2 128) (inject_Z m * pow2 e)) eqn:C.
  - apply Qle_bool_iff in C. rewrite E in C. exfalso. apply (Qlt_irrefl v).
    eapply Qlt_le_trans; eassumption.
  - f_equal. now apply Qred_complete.
Qed.

Lemma pack_comp m e m' e' :
  inject_Z m * pow2 e == inject_Z m' * pow2 e' -> pack m e = pack m' e'.
Proof.
  intros E. unfold pack. cbv zeta.
  assert (C : Qle_bool (pow2 128) (inject_Z m * pow2 e)
              = Qle_bool (pow2 128) (inject_Z m' * pow2 e')).
  { destruct (Qle_bool (pow2 128) (inject_Z m' * pow2 e')) eqn:C'.
    - apply Qle_bool_iff. apply Qle_bool_iff in C'. now rewrite E.
    - destruct (Qle_bool (pow2 128) (inject_Z m * pow2 e)) eqn:C''; [|reflexivity].
      apply Qle_bool_iff in C''. rewrite E in C''. apply Qle_bool_iff in C''. congruence. }
  rewrite C. clear C. destruct (Qle_bool (pow2 128) (inject_Z m' * pow2 e')); [reflexivity|].
  f_equal. now apply Qred_complete.
Qed.

Lemma pack_nonneg m e : (0 <= m)%Z -> fle (Fin 0) (pack m e).
Proof.
  intros H. unfold pack. cbv zeta. destruct (Qle_bool _ _); cbn [fle fval]; [exact I|].
  rewrite Qred_correct. apply Qmult_le_0_compat; [|apply Qlt_le_weak, pow2_pos].
  now rewrite (Zle_Qle 0 m) in H.
Qed.

(** ** Rounding a positive number *)

Definition expo (a : Q) : Z := (Z.max (ilog2 a) emin - 23)%Z.

Lemma expo_mono a b : 0 < a -> a <= b -> (expo a <= expo b)%Z.
Proof. intros Ha Hab. unfold expo. pose proof (ilog2_mono a b Ha Hab). lia. Qed.

Lemma mant_upper a : 0 < a -> a / pow2 (expo a) <= inject_Z (2 ^ 24).
Proof.
  intros Ha. destruct (ilog2_spec a Ha) as [_ H].
  apply Qle_shift_div_r; [apply pow2_pos|].
  rewrite <- pow2_Z by lia. rewrite <- pow2_add.
  apply Qlt_le_weak. eapply Qlt_le_trans; [exact H|]. apply pow2_le. unfold expo. lia.
Qed.

Lemma mant_lower a : 0 < a -> (emin <= ilog2 a)%Z -> inject_Z (2 ^ 23) <= a / pow2 (expo a).
Proof.
  intros Ha He. destruct (ilog2_spec a Ha) as [H _].
  apply Qle_shift_div_l; [apply pow2_pos|].
  rewrite <- pow2_Z by lia. rewrite <- pow2_add.
  eapply Qle_trans; [|exact H]. apply pow2_le. unfold expo. lia.
Qed.

Lemma round_pos_eq a : round_pos a = pack (rne (a / pow2 (expo a))) (expo a).
Proof. reflexivity. Qed.

Lemma round_pos_mono a b : 0 < a -> a <= b -> fle (round_pos a) (round_pos b).
Proof.
  intros Ha Hab.
  assert (Hb : 0 < b) by (eapply Qlt_le_trans; eassumption).
  rewrite !round_pos_eq. apply pack_mono.
  pose proof (expo_mono a b Ha Hab) as He.
  apply scaled_le; [exact He | |].
  - intros E. rewrite <- E. apply rne_mono. now apply div_pow2_le.
  - intros Hlt. split.
    + apply rne_upper. now apply mant_upper.
    + apply rne_lower. apply mant_lower; [exact Hb|]. unfold expo in *. unfold emin in *. lia.
Qed.

Lemma round_pos_comp a b : 0 < a -> a == b -> round_pos a = round_pos b.
Proof.
  intros Ha E. rewrite !round_pos_eq. unfold expo. rewrite <- (ilog2_comp a b Ha E).
  f_equal. apply rne_comp. unfold Qdiv. apply Qmult_comp; [exact E | reflexivity].
Qed.

Lemma round_pos_nonneg a : 0 < a -> fle (Fin 0) (round_pos a).
Proof.
  intros Ha. rewrite round_pos_eq. apply pack_nonneg. apply rne_lower.
  apply Qle_shift_div_l; [apply pow2_pos|]. rewrite Qmult_0_l. now apply Qlt_le_weak.
Qed.

(** A number with a 24-bit significand and an exponent in range is its own
    rounding. *)
Lemma round_pos_exact m e :
  (0 < m < 2 ^ 24)%Z -> (-149 <= e)%Z -> inject_Z m * pow2 e < pow2 128 ->
  round_pos (inject_Z m * pow2 e) = Fin (Qred (inject_Z m * pow2 e)).
Proof.
  intros Hm He Hv. set (a := inject_Z m * pow2 e).
  pose proof (Z.log2_spec m ltac:(lia)) as [L1 L2].
  pose proof (Z.log2_nonneg m) as L0.
  assert (L3 : (Z.log2 m < 24)%Z) by (apply Z.log2_lt_pow2; lia).
  assert (Hk : ilog2 a = (Z.log2 m + e)%Z).
  { apply ilog2_unique; unfold a.
    - rewrite pow2_add. apply Qmult_le_compat_r; [|apply Qlt_le_weak, pow2_pos].
      rewrite pow2_Z by lia. now rewrite <- Zle_Qle.
    - replace (Z.log2 m + e + 1)%Z with (Z.log2 m + 1 + e)%Z by lia.
      rewrite pow2_add. apply Qmult_lt_compat_r; [apply pow2_pos|].
      rewrite pow2_Z by lia. now rewrite <- Zlt_Qlt. }
  rewrite round_pos_eq. unfold expo. rewrite Hk.
  set (E := (Z.max (Z.log2 m + e) emin - 23)%Z).
  assert (HE : (0 <= e - E)%Z) by (unfold E, emin; lia).
  assert (Hdiv : a / pow2 E == inject_Z (m * 2 ^ (e - E))).
  { rewrite div_pow2. unfold a. rewrite <- Qmult_assoc, <- pow2_add.
    rewrite inject_Z_mult. replace (e + - E)%Z with (e - E)%Z by lia.
    now rewrite pow2_Z by lia. }
  rewrite (rne_comp _ _ Hdiv), rne_Z.
  apply pack_value; [|exact Hv].
  rewrite inject_Z_mult, <- pow2_Z by lia. unfold a.
  rewrite <- Qmult_assoc, <- pow2_add. now replace (e - E + E)%Z with e by lia.
Qed.

(** ** Rounding to the nearest float *)

Lemma RN_cases a :
  (a == 0 /\ RN a = Fin 0) \/ (0 < a /\ RN a = round_pos a)
  \/ (a < 0 /\ RN a = fopp (round_pos (- a))).
Proof.
  destruct a as [[|n|n] d]; unfold RN; cbn [Qnum].
  - left. split; reflexivity.
  - right. left. split; reflexivity.
  - right. right. split; reflexivity.
Qed.

Lemma RN_zero a : a == 0 -> RN a = Fin 0.
Proof.
  intros E. destruct (RN_cases a) as [[_ H] | [[H _] | [H _]]]; [exact H | |];
    rewrite E in H; discriminate H.
Qed.

Lemma RN_pos a : 0 < a -> RN a = round_pos a.
Proof.
  intros Ha. destruct (RN_cases a) as [[H _] | [[_ H] | [H _]]]; [|exact H|].
  - rewrite H in Ha. discriminate Ha.
  - exfalso. apply (Qlt_irrefl 0). eapply Qlt_trans; eassumption.
Qed.

Lemma RN_neg a : a < 0 -> RN a = fopp (round_pos (- a)).
Proof.
  intros Ha. destruct (RN_cases a) as [[H _] | [[H _] | [_ H]]]; [| |exact H].
  - rewrite H in Ha. discriminate Ha.
  - exfalso. apply (Qlt_irrefl 0). eapply Qlt_trans; eassumption.
Qed.

Lemma RN_comp a b : a == b -> RN a = RN b.
Proof.
  intros E. destruct (RN_cases a) as [[H R] | [[H R] | [H R]]]; rewrite R.
  - symmetry. apply RN_zero. now rewrite <- E.
  - rewrite RN_pos by now rewrite <- E. now apply round_pos_comp.
  - rewrite RN_neg by now rewrite <- E. f_equal. apply round_pos_comp.
    + lra.
    + now rewrite E.
Qed.

Lemma RN_nonneg a : 0 <= a -> fle (Fin 0) (RN a).
Proof.
  intros Ha. destruct (RN_cases a) as [[H R] | [[H R] | [H R]]]; rewrite R.
  - apply Qle_refl.
  - now apply round_pos_nonneg.
  - exfalso. lra.
Qed.

Lemma RN_nonpos a : a <= 0 -> fle (RN a) (Fin 0).
Proof.
  intros Ha. destruct (RN_cases a) as [[H R] | [[H R] | [H R]]]; rewrite R.
  - apply Qle_refl.
  - exfalso. lra.
  - apply (proj1 (fle_zero_r _)). change NZero with (fopp (Fin 0)).
    apply fle_opp, round_pos_nonneg. lra.
Qed.

Theorem RN_mono a b : a <= b -> fle (RN a) (RN b).
Proof.
  intros Hab. destruct (Qlt_le_dec 0 a) as [Ha | Ha].
  - rewrite !RN_pos by lra. now apply round_pos_mono.
  - destruct (Qlt_le_dec b 0) as [Hb | Hb].
    + rewrite !RN_neg by lra. apply fle_opp, round_pos_mono; lra.
    + eapply fle_trans; [apply RN_nonpos | apply RN_nonneg]; assumption.
Qed.

Lemma Qred_inject_Z z : Qred (inject_Z z) = inject_Z z.
Proof. apply Qred_identity. cbn. apply Z.gcd_1_r. Qed.

Lemma RN_Z z : (Z.abs z <= 16777216)%Z -> RN (inject_Z z) = Fin (inject_Z z).
Proof.
  change 16777216%Z with (2 ^ 24)%Z.
  assert (Hpos : forall m, (0 < m <= 2 ^ 24)%Z -> round_pos (inject_Z m) = Fin (inject_Z m)).
  { intros m Hm. destruct (Z.eq_dec m (2 ^ 24)%Z) as [-> | N]; [vm_compute; reflexivity|].
    rewrite <- (Qred_inject_Z m) at 2.
    rewrite (round_pos_comp (inject_Z m) (inject_Z m * pow2 0)).
    - rewrite round_pos_exact; [| lia | lia |].
      + f_equal. apply Qred_complete. change (pow2 0) with 1. apply Qmult_1_r.
      + change (pow2 0) with 1. rewrite Qmult_1_r.
        apply Qle_lt_trans with (inject_Z (2 ^ 24)); [rewrite <- Zle_Qle; lia | reflexivity].
    - rewrite (Zlt_Qlt 0 m) in Hm. apply Hm.
    - change (pow2 0) with 1. now rewrite Qmult_1_r. }
  intros Hz. destruct (Z.lt_trichotomy z 0) as [H | [-> | H]].
  - rewrite RN_neg by (now rewrite (Zlt_Qlt z 0) in H).
    rewrite <- inject_Z_opp, Hpos by lia. cbn [fopp].
    destruct (Qeq_bool (inject_Z (- z)) 0) eqn:E.
    + apply Qeq_bool_iff in E. apply (inject_Z_injective (- z) 0) in E. lia.
    + rewrite <- inject_Z_opp. do 2 f_equal. lia.
  - reflexivity.
  - rewrite RN_pos by (now rewrite (Zlt_Qlt 0 z) in H). apply Hpos. lia.
Qed.


(** ** The correctly rounded square root *)

Lemma half_square f : (0 <= f)%Z ->
  inject_Z (f * f) < (inject_Z f + (1 # 2)) * (inject_Z f + (1 # 2)) /\
  (inject_Z f + (1 # 2)) * (inject_Z f + (1 # 2)) < inject_Z ((f + 1) * (f + 1)).
Proof.
  intros Hf. rewrite (Zle_Qle 0 f) in Hf. change (inject_Z 0) with 0 in Hf.
  rewrite !inject_Z_mult, inject_Z_plus.
  set (q := inject_Z f) in *. change (inject_Z 1) with 1. split; lra.
Qed.

Lemma sqrt_floor_bounds y : 0 <= y ->
  let f := Z.sqrt (Qfloor y) in
  (0 <= f)%Z /\ inject_Z (f * f) <= y /\ y < inject_Z ((f + 1) * (f + 1)).
Proof.
  intros Hy. cbv zeta.
  assert (H0 : (0 <= Qfloor y)%Z).
  { change 0%Z with (Qfloor 0). now apply Qfloor_resp_le. }
  pose proof (Z.sqrt_spec (Qfloor y) H0) as [S1 S2].
  pose proof (Z.sqrt_nonneg (Qfloor y)) as S0.
  pose proof (Qfloor_le y) as F1. pose proof (Qlt_floor y) as F2.
  split; [exact S0|]. split.
  - eapply Qle_trans; [|exact F1]. now rewrite <- Zle_Qle.
  - eapply Qlt_le_trans; [exact F2|]. rewrite <- Zle_Qle. unfold Z.succ in S2. lia.
Qed.

Lemma sqrt_rne_comp x y : x == y -> sqrt_rne x = sqrt_rne y.
Proof.
  intros E. unfold sqrt_rne. cbv zeta. rewrite <- (Qfloor_comp _ _ E).
  set (h := inject_Z (Z.sqrt (Qfloor x)) + (1 # 2)).
  assert (H : Qcompare x (h * h) = Qcompare y (h * h))
    by (apply Qcompare_comp; [exact E | reflexivity]).
  now rewrite H.
Qed.

Lemma sqrt_rne_range y : 0 <= y ->
  (Z.sqrt (Qfloor y) <= sqrt_rne y <= Z.sqrt (Qfloor y) + 1)%Z.
Proof.
  intros _. unfold sqrt_rne. cbv zeta.
  destruct (Qcompare _ _); try destruct (Z.even _); lia.
Qed.

Lemma sqrt_rne_mono x y : 0 <= x -> x <= y -> (sqrt_rne x <= sqrt_rne y)%Z.
Proof.
  intros Hx Hxy.
  assert (Hy : 0 <= y) by (eapply Qle_trans; eassumption).
  assert (H0 : (0 <= Qfloor x)%Z).
  { change 0%Z with (Qfloor 0). now apply Qfloor_resp_le. }
  pose proof (Z.sqrt_le_mono _ _ (Qfloor_resp_le _ _ Hxy)) as Hf.
  destruct (Z.eq_dec (Z.sqrt (Qfloor x)) (Z.sqrt (Qfloor y))) as [E | N].
  - unfold sqrt_rne. cbv zeta. rewrite <- E. set (f := Z.sqrt (Qfloor x)).
    set (h := inject_Z f + (1 # 2)).
    destruct (Qcompare_spec x (h * h)) as [Ex | Lx | Gx];
      destruct (Qcompare_spec y (h * h)) as [Ey | Ly | Gy];
      try lia; try (destruct (Z.even f); lia); exfalso; lra.
  - pose proof (sqrt_rne_range x Hx). pose proof (sqrt_rne_range y Hy). lia.
Qed.

Lemma sqrt_rne_lower k y : (0 <= k)%Z -> inject_Z (k * k) <= y -> (k <= sqrt_rne y)%Z.
Proof.
  intros Hk H.
  assert (Hy : 0 <= y).
  { eapply Qle_trans; [|exact H]. rewrite <- (Zle_Qle 0). nia. }
  pose proof (sqrt_rne_range y Hy) as [R _].
  assert (Hf : (k * k <= Qfloor y)%Z).
  { rewrite <- (Qfloor_Z (k * k)). now apply Qfloor_resp_le. }
  assert ((k <= Z.sqrt (Qfloor y))%Z) by (apply Z.sqrt_le_square; lia).
  lia.
Qed.

Lemma sqrt_rne_upper k y : (0 <= k)%Z -> 0 <= y -> y <= inject_Z (k * k) -> (sqrt_rne y <= k)%Z.
Proof.
  intros Hk Hy H.
  destruct (sqrt_floor_bounds y Hy) as (S0 & S1 & S2).
  pose proof (sqrt_rne_range y Hy) as [_ R].
  set (f := Z.sqrt (Qfloor y)) in *.
  assert (Hfk : (f * f <= k * k)%Z).
  { rewrite Zle_Qle. eapply Qle_trans; eassumption. }
  assert (Hle : (f <= k)%Z) by nia.
  destruct (Z.eq_dec f k) as [E | N]; [|lia].
  unfold sqrt_rne. cbv zeta. fold f.
  destruct (half_square f S0) as [H1 _].
  assert (L : Qcompare y ((inject_Z f + (1 # 2)) * (inject_Z f + (1 # 2))) = Lt).
  { apply Qlt_alt. eapply Qle_lt_trans; [exact H|]. now rewrite <- E. }
  rewrite L. lia.
Qed.

(** The square root of a square is rounded as its root is. *)
Lemma sqrt_rne_square x : 0 <= x -> sqrt_rne (x * x) = rne x.
Proof.
  intros Hx.
  pose proof (Qfloor_le x) as F1. pose proof (Qlt_floor x) as F2.
  assert (H0 : (0 <= Qfloor x)%Z).
  { change 0%Z with (Qfloor 0). now apply Qfloor_resp_le. }
  set (f := Qfloor x) in *.
  assert (Q0 : 0 <= inject_Z f) by (now rewrite <- (Zle_Qle 0)).
  rewrite inject_Z_plus in F2. change (inject_Z 1) with 1 in F2.
  assert (Hs : Z.sqrt (Qfloor (x * x)) = f).
  { apply Z.sqrt_unique. unfold Z.succ. split.
    - rewrite <- (Qfloor_Z (f * f)). apply Qfloor_resp_le. rewrite inject_Z_mult. nra.
    - rewrite Zlt_Qlt. eapply Qle_lt_trans; [apply Qfloor_le|].
      rewrite inject_Z_mult, inject_Z_plus. change (inject_Z 1) with 1. nra. }
  unfold sqrt_rne, rne. cbv zeta. rewrite Hs. fold f.
  set (h := inject_Z f + (1 # 2)).
  destruct (Qcompare_spec (x * x) (h * h)) as [E1 | L1 | G1];
    destruct (Qcompare_spec (x - inject_Z f) (1 # 2)) as [E2 | L2 | G2];
    try reflexivity; exfalso; unfold h in *; nra.
Qed.

Definition sqrt_expo (a : Q) : Z := (Z.max (ilog2 a / 2) emin - 23)%Z.

Lemma sqrt_pos_eq a :
  sqrt_pos a = pack (sqrt_rne (a / pow2 (2 * sqrt_expo a))) (sqrt_expo a).
Proof. reflexivity. Qed.

Lemma sqrt_expo_mono a b : 0 < a -> a <= b -> (sqrt_expo a <= sqrt_expo b)%Z.
Proof.
  intros Ha Hab. unfold sqrt_expo. pose proof (ilog2_mono a b Ha Hab) as H.
  assert ((ilog2 a / 2 <= ilog2 b / 2)%Z) by (apply Z.div_le_mono; lia). lia.
Qed.

Lemma sqrt_mant_upper a :
  0 < a -> a / pow2 (2 * sqrt_expo a) <= inject_Z (2 ^ 24 * 2 ^ 24).
Proof.
  intros Ha. destruct (ilog2_spec a Ha) as [_ H].
  apply Qle_shift_div_r; [apply pow2_pos|].
  change (2 ^ 24 * 2 ^ 24)%Z with (2 ^ 48)%Z.
  rewrite <- pow2_Z by lia. rewrite <- pow2_add.
  apply Qlt_le_weak. eapply Qlt_le_trans; [exact H|]. apply pow2_le. unfold sqrt_expo, emin.
  pose proof (Z.div_mod (ilog2 a) 2 ltac:(lia)). pose proof (Z.mod_pos_bound (ilog2 a) 2 ltac:(lia)). lia.
Qed.

Lemma sqrt_mant_lower a :
  0 < a -> (emin <= ilog2 a / 2)%Z ->
  inject_Z (2 ^ 23 * 2 ^ 23) <= a / pow2 (2 * sqrt_expo a).
Proof.
  intros Ha He. destruct (ilog2_spec a Ha) as [H _].
  apply Qle_shift_div_l; [apply pow2_pos|].
  change (2 ^ 23 * 2 ^ 23)%Z with (2 ^ 46)%Z.
  rewrite <- pow2_Z by lia. rewrite <- pow2_add.
  eapply Qle_trans; [|exact H]. apply pow2_le. unfold sqrt_expo, emin in *.
  pose proof (Z.div_mod (ilog2 a) 2 ltac:(lia)). pose proof (Z.mod_pos_bound (ilog2 a) 2 ltac:(lia)). lia.
Qed.

Lemma div_pow2_nonneg a e : 0 <= a -> 0 <= a / pow2 e.
Proof.
  intros Ha. apply Qle_shift_div_l; [apply pow2_pos|]. now rewrite Qmult_0_l.
Qed.

Lemma sqrt_pos_mono a b : 0 < a -> a <= b -> fle (sqrt_pos a) (sqrt_pos b).
Proof.
  intros Ha Hab.
  assert (Hb : 0 < b) by (eapply Qlt_le_trans; eassumption).
  rewrite !sqrt_pos_eq. apply pack_mono.
  pose proof (sqrt_expo_mono a b Ha Hab) as He.
  apply scaled_le; [exact He | |].
  - intros E. rewrite <- E. apply sqrt_rne_mono.
    + apply div_pow2_nonneg. now apply Qlt_le_weak.
    + now apply div_pow2_le.
  - intros Hlt. split.
    + apply sqrt_rne_upper; [lia | apply div_pow2_nonneg; now apply Qlt_le_weak |].
      now apply sqrt_mant_upper.
    + apply sqrt_rne_lower; [lia|]. apply sqrt_mant_lower; [exact Hb|].
      unfold sqrt_expo, emin in *. lia.
Qed.

Lemma sqrt_pos_nonneg a : 0 < a -> fle (Fin 0) (sqrt_pos a).
Proof.
  intros Ha. rewrite sqrt_pos_eq. apply pack_nonneg.
  pose proof (sqrt_rne_range (a / pow2 (2 * sqrt_expo a))
                (div_pow2_nonneg _ _ (Qlt_le_weak _ _ Ha))) as [H _].
  pose proof (Z.sqrt_nonneg (Qfloor (a / pow2 (2 * sqrt_expo a)))). lia.
Qed.

Lemma sqrt_pos_comp a b : 0 < a -> a == b -> sqrt_pos a = sqrt_pos b.
Proof.
  intros Ha E. rewrite !sqrt_pos_eq. unfold sqrt_expo. rewrite <- (ilog2_comp a b Ha E).
  f_equal. apply sqrt_rne_comp. unfold Qdiv. apply Qmult_comp; [exact E | reflexivity].
Qed.

Lemma ilog2_square x : 0 < x -> (ilog2 (x * x) / 2)%Z = ilog2 x.
Proof.
  intros Hx. destruct (ilog2_spec x Hx) as [H1 H2].
  assert (Hxx : 0 < x * x) by nra.
  destruct (ilog2_spec (x * x) Hxx) as [H3 H4].
  set (k := ilog2 x) in *. set (j := ilog2 (x * x)) in *.
  pose proof (pow2_pos k) as Pk.
  assert (L : (2 * k <= j)%Z).
  { destruct (Z_le_gt_dec (2 * k) j) as [H | H]; [exact H | exfalso].
    assert (H0 : pow2 (j + 1) <= pow2 (k + k)) by (apply pow2_le; lia).
    rewrite (pow2_add k k) in H0.
    assert (pow2 k * pow2 k <= x * x)
      by (apply Qmult_le_compat_nonneg; split; (assumption || now apply Qlt_le_weak)).
    apply (Qlt_irrefl (x * x)). eapply Qlt_le_trans; [exact H4|]. eapply Qle_trans; eassumption. }
  assert (U : (j < 2 * k + 2)%Z).
  { destruct (Z_lt_ge_dec j (2 * k + 2)) as [H | H]; [exact H | exfalso].
    assert (H0 : pow2 ((k + 1) + (k + 1)) <= pow2 j) by (apply pow2_le; lia).
    rewrite (pow2_add (k + 1) (k + 1)) in H0.
    assert (x * x < pow2 (k + 1) * pow2 (k + 1))
      by (apply Qmult_lt_compat_nonneg; split; (assumption || now apply Qlt_le_weak)).
    apply (Qlt_irrefl (x * x)). eapply Qlt_le_trans; [eassumption|]. eapply Qle_trans; eassumption. }
  symmetry. apply Z.div_unique with (j - 2 * k)%Z; lia.
Qed.

Theorem sqrt_pos_square x : 0 < x -> sqrt_pos (x * x) = round_pos x.
Proof.
  intros Hx. rewrite sqrt_pos_eq, round_pos_eq. unfold sqrt_expo. rewrite ilog2_square by exact Hx.
  fold (expo x). f_equal.
  rewrite <- (sqrt_rne_square (x / pow2 (expo x)))
    by (apply div_pow2_nonneg; now apply Qlt_le_weak).
  apply sqrt_rne_comp.
  replace (2 * expo x)%Z with (expo x + expo x)%Z by lia.
  rewrite pow2_add. pose proof (pow2_pos (expo x)) as P. field.
  intros E. rewrite E in P. discriminate P.
Qed.

(** A number in [0, hi], with [hi] an integer float, is rounded to a finite
    float in [0, hi]. *)
Lemma RN_range a hi :
  (0 <= hi <= 16777216)%Z -> 0 <= a -> a <= inject_Z hi ->
  exists q, RN a = Fin q /\ 0 <= q /\ q <= inject_Z hi.
Proof.
  intros Hhi H0 H1.
  pose proof (RN_nonneg a H0) as L. pose proof (RN_mono _ _ H1) as U.
  rewrite RN_Z in U by lia.
  destruct (RN_cases a) as [[_ R] | [[_ R] | [H _]]]; [| |exfalso; lra].
  - rewrite R in *. cbn [fle fval] in U. exists 0. auto.
  - rewrite R in *. rewrite round_pos_eq in *. unfold pack in *. cbv zeta in *.
    destruct (Qle_bool (pow2 128) _); cbn [fle fval] in *; [contradiction|].
    eexists. split; [reflexivity|]. split; assumption.
Qed.

End F32Facts.

(** ** Operations on floats *)

Module FloatOps.

Import F32Facts.
Import Lqa.
Local Open Scope Q_scope.

Lemma sgn_pos a : 0 < a -> sgn a = Lt.
Proof. destruct a as [[|n|n] d]; unfold Qlt; cbn; intros H; try lia; reflexivity. Qed.

Lemma sgn_zero a : a == 0 -> sgn a = Eq.
Proof. destruct a as [[|n|n] d]; unfold Qeq; cbn; intros H; try lia; reflexivity. Qed.

Lemma sgn_neg a : a < 0 -> sgn a = Gt.
Proof. destruct a as [[|n|n] d]; unfold Qlt; cbn; intros H; try lia; reflexivity. Qed.

Lemma negative_nonneg a : 0 <= a -> negative (Fin a) = false.
Proof.
  intros H. cbn [negative]. destruct (Qlt_le_dec 0 a) as [P | Z].
  - now rewrite sgn_pos.
  - rewrite sgn_zero; [reflexivity | lra].
Qed.

Lemma Qeq_bool_false a : ~ a == 0 -> Qeq_bool a 0 = false.
Proof.
  intros H. destruct (Qeq_bool a 0) eqn:E; [|reflexivity].
  apply Qeq_bool_iff in E. contradiction.
Qed.

Lemma Qeq_bool_true a : a == 0 -> Qeq_bool a 0 = true.
Proof. intros H. now apply Qeq_bool_iff. Qed.

Lemma RN_defined a : fle (RN a) (RN a).
Proof. apply RN_mono, Qle_refl. Qed.

(** *** Square root *)

Lemma fsqrt_pos a : 0 < a -> fsqrt (Fin a) = sqrt_pos a.
Proof. intros H. unfold fsqrt. now rewrite sgn_pos. Qed.

Lemma fsqrt_zero a : a == 0 -> fsqrt (Fin a) = Fin 0.
Proof. intros H. unfold fsqrt. now rewrite sgn_zero. Qed.

Lemma fsqrt_mono a b : 0 <= a -> a <= b -> fle (fsqrt (Fin a)) (fsqrt (Fin b)).
Proof.
  intros Ha Hab. destruct (Qlt_le_dec 0 a) as [Pa | Za].
  - rewrite !fsqrt_pos by lra. now apply sqrt_pos_mono.
  - rewrite (fsqrt_zero a) by lra. destruct (Qlt_le_dec 0 b) as [Pb | Zb].
    + rewrite fsqrt_pos by exact Pb. now apply sqrt_pos_nonneg.
    + rewrite (fsqrt_zero b) by lra. apply Qle_refl.
Qed.

Lemma fsqrt_square x : 0 <= x -> fsqrt (Fin (x * x)) = RN x.
Proof.
  intros Hx. destruct (Qlt_le_dec 0 x) as [P | Z].
  - rewrite fsqrt_pos by nra. rewrite RN_pos by exact P. now apply sqrt_pos_square.
  - assert (E : x == 0) by lra. rewrite fsqrt_zero by (rewrite E; reflexivity).
    symmetry. now apply RN_zero.
Qed.

(** *** Division, subtraction, multiplication *)

Lemma fdiv_pos a r : 0 < r -> fdiv (Fin a) (Fin r) = RN (a / r).
Proof.
  intros Hr. unfold fdiv. cbn [is_nan orb fval]. cbv zeta.
  rewrite (Qeq_bool_false r) by lra.
  destruct (Qeq_bool a 0) eqn:E; [|reflexivity].
  apply Qeq_bool_iff in E.
  rewrite (negative_nonneg a), (negative_nonneg r) by lra. cbn [xorb zero].
  symmetry. apply RN_zero. rewrite E. field. lra.
Qed.

Lemma fdiv_special r : 0 < r ->
  fdiv NZero (Fin r) = NZero /\ fdiv PInf (Fin r) = PInf /\ fdiv NInf (Fin r) = NInf.
Proof.
  intros Hr. unfold fdiv. cbn [is_nan orb fval]. cbv zeta.
  rewrite (Qeq_bool_false r) by lra. rewrite (negative_nonneg r) by lra.
  repeat split; reflexivity.
Qed.

Lemma fdiv_mono x y r : 0 < r -> fle x y -> fle (fdiv x (Fin r)) (fdiv y (Fin r)).
Proof.
  intros Hr. destruct (fdiv_special r Hr) as (EZ & EP & EN).
  assert (Hinv : 0 < / r) by now apply Qinv_lt_0_compat.
  destruct x as [a| | | |], y as [b| | | |]; cbn [fle fval]; intros H; try contradiction;
    rewrite ?fdiv_pos, ?EZ, ?EP, ?EN by exact Hr;
    try (apply fle_PInf, RN_defined); try (apply fle_NInf, RN_defined);
    try exact I; try apply Qle_refl.
  - apply RN_mono. unfold Qdiv. apply Qmult_le_compat_r; [exact H | lra].
  - apply (proj2 (fle_zero_r _)), RN_nonpos. unfold Qdiv. nra.
  - apply (proj2 (fle_zero_l _)), RN_nonneg. unfold Qdiv. nra.
Qed.

Lemma fadd_fin a b : fadd (Fin a) (Fin b) = RN (a + b).
Proof. reflexivity. Qed.

Lemma fsub_finite c y b : fval y = Some b -> fsub (Fin c) y = RN (c - b).
Proof.
  destruct y as [q| | | |]; cbn [fval]; intros [= <-]; unfold fsub; cbn [fopp].
  - destruct (Qeq_bool q 0) eqn:E; cbn [fadd]; [|reflexivity].
    apply Qeq_bool_iff in E. apply RN_comp. rewrite E. ring.
  - cbn [fadd]. apply RN_comp. ring.
Qed.

Lemma fsub_fin a b : fsub (Fin a) (Fin b) = RN (a - b).
Proof. now apply fsub_finite. Qed.

Lemma fsub_antitone c x y : fle x y -> fle (fsub (Fin c) y) (fsub (Fin c) x).
Proof.
  destruct x as [a| | | |] eqn:Ex, y as [b| | | |] eqn:Ey; cbn [fle fval]; intros H;
    try contradiction;
    try (erewrite (fsub_finite c (Fin a)) by reflexivity);
    try (erewrite (fsub_finite c (Fin b)) by reflexivity);
    try (erewrite (fsub_finite c NZero) by reflexivity);
    try (apply RN_mono; lra);
    try (apply fle_NInf, RN_defined); try (apply fle_PInf, RN_defined); exact I.
Qed.

Lemma fmul_square a : fmul (Fin a) (Fin a) = RN (a * a).
Proof.
  unfold fmul. cbn [is_nan orb fval]. cbv zeta. rewrite xorb_nilpotent.
  destruct (Qeq_bool (a * a) 0) eqn:E; [|reflexivity].
  apply Qeq_bool_iff in E. symmetry. now apply RN_zero.
Qed.

Lemma fmul_nonneg w a : 0 <= w -> 0 <= a -> fmul (Fin w) (Fin a) = RN (w * a).
Proof.
  intros Hw Ha. unfold fmul. cbn [is_nan orb fval]. cbv zeta.
  rewrite (negative_nonneg w Hw), (negative_nonneg a Ha).
  destruct (Qeq_bool (w * a) 0) eqn:E; [|reflexivity].
  apply Qeq_bool_iff in E. symmetry. now apply RN_zero.
Qed.

Lemma fmul_nonpos w y a :
  0 <= w -> fval y = Some a -> a <= 0 -> fle (fmul (Fin w) y) (Fin 0).
Proof.
  intros Hw Ey Ha. unfold fmul.
  assert (Hn : is_nan y = false) by (destruct y; (discriminate || reflexivity)).
  cbn [is_nan orb fval]. rewrite Hn, Ey. cbv zeta.
  destruct (Qeq_bool (w * a) 0) eqn:E.
  - destruct (xorb _ _); cbn [zero fle fval]; apply Qle_refl.
  - apply RN_nonpos. nra.
Qed.

Lemma fmul_zero y : is_finite y -> fle (fmul (Fin 0) y) (Fin 0).
Proof.
  intros Hy. destruct y as [a| | | |]; cbn [is_finite] in Hy; try contradiction.
  - unfold fmul. cbn [is_nan orb fval]. cbv zeta.
    rewrite (Qeq_bool_true (0 * a)) by ring.
    destruct (xorb _ _); cbn [zero fle fval]; apply Qle_refl.
  - apply (fmul_nonpos 0 NZero 0); [apply Qle_refl | reflexivity | apply Qle_refl].
Qed.

(** *** Clipping and the conversion to 8 bits *)

Lemma fltb_fin a b : fltb (Fin a) (Fin b) = true <-> a < b.
Proof.
  cbn [fltb fval]. destruct (Qle_bool b a) eqn:E; cbn [negb].
  - apply Qle_bool_iff in E. split; [discriminate | intros H; exfalso; lra].
  - split; [|reflexivity]. intros _. apply Qnot_le_lt. intros H.
    apply Qle_bool_iff in H. congruence.
Qed.

Lemma fltb_fin_false a b : fltb (Fin a) (Fin b) = false <-> b <= a.
Proof.
  destruct (fltb (Fin a) (Fin b)) eqn:E.
  - apply fltb_fin in E. split; [discriminate | intros H; exfalso; lra].
  - split; [|reflexivity]. intros _. apply Qnot_lt_le. intros H.
    apply fltb_fin in H. congruence.
Qed.

(** What [clip] to [0, hi] returns, case by case. *)
Lemma clip_cases v hi : 0 < hi ->
  match v with
  | NaN => clip v (Fin 0) (Fin hi) = NaN
  | PInf => clip v (Fin 0) (Fin hi) = Fin hi
  | NInf | NZero => clip v (Fin 0) (Fin hi) = Fin 0
  | Fin q => (q <= 0 /\ clip v (Fin 0) (Fin hi) = Fin 0)
             \/ (0 < q < hi /\ clip v (Fin 0) (Fin hi) = Fin q)
             \/ (hi <= q /\ clip v (Fin 0) (Fin hi) = Fin hi)
  end.
Proof.
  intros H. pose proof (proj2 (fltb_fin 0 hi) H) as Hlh.
  destruct v as [q| | | |]; unfold clip; cbv zeta.
  - destruct (fltb (Fin 0) (Fin q)) eqn:E1; cbv iota.
    + apply fltb_fin in E1. destruct (fltb (Fin q) (Fin hi)) eqn:E2.
      * apply fltb_fin in E2. right. left. auto.
      * apply fltb_fin_false in E2. right. right. auto.
    + apply fltb_fin_false in E1. rewrite Hlh. left. auto.
  - change (fltb (Fin 0) NZero) with false. cbv iota. now rewrite Hlh.
  - reflexivity.
  - change (fltb (Fin 0) NInf) with false. cbv iota. now rewrite Hlh.
  - reflexivity.
Qed.

Ltac clip_facts :=
  repeat match goal with
    | C : _ \/ _ |- _ => destruct C as [C | C]
    | C : _ /\ clip _ _ _ = _ |- _ => let H := fresh "B" in destruct C as [H C]
    end.

Lemma clip_range v hi : 0 < hi -> v <> NaN ->
  exists q, clip v (Fin 0) (Fin hi) = Fin q /\ 0 <= q /\ q <= hi.
Proof.
  intros H Hv. pose proof (clip_cases v hi H) as C.
  destruct v as [q| | | |]; cbv beta iota in C; [| | | |congruence];
    clip_facts; rewrite C; eexists; (split; [reflexivity|]); lra.
Qed.

Lemma clip_low v hi : 0 < hi -> fle v (Fin 0) -> clip v (Fin 0) (Fin hi) = Fin 0.
Proof.
  intros H Hv. pose proof (clip_cases v hi H) as C.
  destruct v as [q| | | |]; cbn [fle fval] in Hv; cbv beta iota in C; try contradiction;
    clip_facts; try exact C; exfalso; lra.
Qed.

Lemma clip_mono x y hi : 0 < hi -> fle x y ->
  exists q1 q2, clip x (Fin 0) (Fin hi) = Fin q1 /\ clip y (Fin 0) (Fin hi) = Fin q2 /\
                0 <= q1 /\ q1 <= q2 /\ q2 <= hi.
Proof.
  intros H Hxy. pose proof (clip_cases x hi H) as Cx. pose proof (clip_cases y hi H) as Cy.
  destruct x as [a| | | |], y as [b| | | |]; cbn [fle fval] in Hxy; try contradiction;
    cbv beta iota in Cx, Cy; clip_facts; rewrite ?Cx, ?Cy;
    do 2 eexists; (split; [reflexivity|]); (split; [reflexivity|]); lra.
Qed.

(** A value in [0, 255] is cut to its integer part, and the 8-bit conversion
    does not wrap. *)
Lemma astype_uint8_floor q : 0 <= q -> q <= 255 ->
  astype_uint8 (Fin q) = Qfloor q /\ (0 <= Qfloor q <= 255)%Z.
Proof.
  intros H0 H255.
  assert (L : (0 <= Qfloor q)%Z) by (change 0%Z with (Qfloor 0); now apply Qfloor_resp_le).
  assert (U : (Qfloor q <= 255)%Z) by (change 255%Z with (Qfloor 255); now apply Qfloor_resp_le).
  split; [|lia]. unfold astype_uint8, trunc.
  rewrite (proj2 (Qle_bool_iff 0 q) H0). apply Z.mod_small. lia.
Qed.

End FloatOps.

(** ** The falloff of glowGen.py *)

Module GlowFacts.

Import Glow F32Facts FloatOps.
Import Lqa.
Local Open Scope Q_scope.

Section WithNumpy.

Context `{N : Numpy}.

Lemma dist_at_exact cx cy x y :
  (-1024 <= cx <= 2048)%Z -> (-1024 <= cy <= 2048)%Z -> (x < 1024)%nat -> (y < 1024)%nat ->
  dist_at (inject_Z cx, inject_Z cy) x y = fsqrt (Fin (inject_Z (sq_distance cx cy x y))).
Proof.
  intros Hcx Hcy Hx Hy. unfold dist_at, dist, to_f32. cbn [fst snd]. cbv zeta.
  rewrite !RN_Z by lia. rewrite !fsub_fin. unfold Qminus.
  rewrite <- !inject_Z_opp, <- !inject_Z_plus. rewrite !RN_Z by lia.
  rewrite !fmul_square, <- !inject_Z_mult. rewrite !RN_Z by nia.
  rewrite fadd_fin, <- inject_Z_plus. rewrite RN_Z by nia.
  unfold sq_distance. do 3 f_equal. ring.
Qed.

Lemma sq_distance_nonneg cx cy x y : (0 <= sq_distance cx cy x y)%Z.
Proof. unfold sq_distance. nia. Qed.

Lemma alpha_u8_antitone r a0 p d1 d2 :
  power_monotone N -> 0 < r -> 0 < p -> is_finite a0 -> fle d1 d2 ->
  (alpha_u8 (Fin r) a0 (Fin p) d2 <= alpha_u8 (Fin r) a0 (Fin p) d1)%Z.
Proof.
  intros Hmono Hr Hp Ha Hd. unfold alpha_u8, alpha_f, falloff.
  pose proof (fsub_antitone 1 _ _ (fdiv_mono _ _ r Hr Hd)) as Hs.
  destruct (clip_mono _ _ 1 ltac:(reflexivity) Hs) as (t2 & t1 & -> & -> & T0 & T12 & T1).
  destruct (Hmono t2 t1 p T0 T12 T1 Hp) as (w2 & w1 & -> & -> & W0 & W12).
  assert (Hval : exists a, fval a0 = Some a)
    by (destruct a0; cbn [is_finite] in Ha; try contradiction; cbn [fval]; eauto).
  destruct Hval as [a Ea].
  destruct (Qlt_le_dec 0 a) as [Pos | Neg].
  - destruct a0 as [a'| | | |]; cbn [fval] in Ea; try discriminate.
    2: { exfalso. injection Ea as E. rewrite <- E in Pos. now apply Qlt_irrefl in Pos. }
    injection Ea as ->.
    rewrite !fmul_nonneg by lra.
    assert (Hm : fle (RN (w2 * a)) (RN (w1 * a))).
    { apply RN_mono. apply Qmult_le_compat_r; lra. }
    destruct (clip_mono _ _ 255 ltac:(reflexivity) Hm) as (c2 & c1 & -> & -> & C0 & C12 & C1).
    destruct (astype_uint8_floor c2) as [-> _]; [lra | lra|].
    destruct (astype_uint8_floor c1) as [-> _]; [lra | lra|].
    now apply Qfloor_resp_le.
  - rewrite !clip_low; [lia | reflexivity | | reflexivity |];
      apply (fmul_nonpos _ a0 a); (assumption || lra).
Qed.

Lemma alpha_u8_outside r a0 p d :
  power_fixed N -> 0 < r -> 0 < p -> is_finite a0 -> fle (Fin r) d ->
  alpha_u8 (Fin r) a0 (Fin p) d = 0%Z.
Proof.
  intros [_ Hzero] Hr Hp Ha Hd. unfold alpha_u8, alpha_f, falloff.
  pose proof (fsub_antitone 1 _ _ (fdiv_mono _ _ r Hr Hd)) as Hs.
  assert (E1 : fdiv (Fin r) (Fin r) = Fin 1).
  { rewrite fdiv_pos by exact Hr. rewrite (RN_comp (r / r) 1); [reflexivity|]. field. lra. }
  rewrite E1 in Hs. change (fsub (Fin 1) (Fin 1)) with (Fin 0) in Hs.
  rewrite (clip_low _ 1 ltac:(reflexivity) Hs).
  rewrite (Hzero p Hp).
  rewrite (clip_low _ 255 ltac:(reflexivity) (fmul_zero a0 Ha)). reflexivity.
Qed.

Lemma fmul_self_nonneg x : fle x x -> fle (Fin 0) (fmul x x).
Proof.
  destruct x as [a| | | |]; intros H; cbn [fle fval] in H; try contradiction.
  - rewrite fmul_square. apply RN_nonneg. nra.
  - apply Qle_refl.
  - exact I.
  - exact I.
Qed.

Lemma fadd_nonneg u v : fle (Fin 0) u -> fle (Fin 0) v -> fle (Fin 0) (fadd u v).
Proof.
  destruct u as [a| | | |], v as [b| | | |]; intros Hu Hv; cbn [fle fval] in Hu, Hv;
    try contradiction; cbn [fadd]; try exact I; try apply Qle_refl; apply RN_nonneg; lra.
Qed.

Lemma fsqrt_nonneg w : fle (Fin 0) w -> fle (Fin 0) (fsqrt w).
Proof.
  destruct w as [a| | | |]; intros H; cbn [fle fval] in H; try contradiction.
  - change (Fin 0) with (fsqrt (Fin 0)) at 1. apply fsqrt_mono; [apply Qle_refl | exact H].
  - apply Qle_refl.
  - exact I.
Qed.

(** The distance of a pixel is a float that is not negative, or [+inf]. *)
Lemma dist_at_nonneg center x y :
  (x < 1024)%nat -> (y < 1024)%nat -> fle (Fin 0) (dist_at center x y).
Proof.
  intros Hx Hy. unfold dist_at, dist, to_f32. cbv zeta. rewrite !RN_Z by lia.
  apply fsqrt_nonneg, fadd_nonneg; apply fmul_self_nonneg, fsub_antitone, RN_defined.
Qed.

Lemma falloff_unit r d :
  0 < r -> fle (Fin 0) d -> exists t, falloff (Fin r) d = Fin t /\ 0 <= t /\ t <= 1.
Proof.
  intros Hr Hd. unfold falloff.
  pose proof (fsub_antitone 1 _ _ (fdiv_mono _ _ r Hr Hd)) as Hs.
  destruct (clip_mono _ _ 1 ltac:(reflexivity) Hs) as (t & t0 & -> & _ & T0 & T12 & T1).
  exists t. split; [reflexivity|]. split; lra.
Qed.

(** With [alpha0] in [0, 255] every float on the way is in range. *)
Lemma alpha_f_range radius alpha0 power d :
  power_fixed N -> power_monotone N ->
  is_positive (to_f32 radius) -> is_positive (to_f32 power) -> 0 <= alpha0 <= 255 ->
  fle (Fin 0) d ->
  exists t w a,
    falloff (to_f32 radius) d = Fin t /\ 0 <= t <= 1 /\
    power32 (Fin t) (to_f32 power) = Fin w /\ 0 <= w <= 1 /\
    alpha_f (to_f32 radius) (to_f32 alpha0) (to_f32 power) d = Fin a /\ 0 <= a <= 255.
Proof.
  intros [Hone _] Hmono Hr Hp [A0 A1] Hd. unfold alpha_f.
  destruct (to_f32 radius) as [r| | | |]; cbn [is_positive] in Hr; try contradiction.
  destruct (to_f32 power) as [p| | | |]; cbn [is_positive] in Hp; try contradiction.
  destruct (falloff_unit r d Hr Hd) as (t & -> & T0 & T1).
  destruct (Hmono t 1 p T0 T1 ltac:(apply Qle_refl) Hp) as (w & w1 & Ew & E1 & W0 & W1).
  rewrite Hone in E1. injection E1 as <-. rewrite Ew.
  destruct (RN_range alpha0 255 ltac:(lia) A0 A1) as (a0 & Ea & B0 & B1).
  unfold to_f32. rewrite Ea. rewrite fmul_nonneg by assumption.
  assert (Hprod : 0 <= w * a0 /\ w * a0 <= 255) by (change (inject_Z 255) with 255 in B1; nra).
  destruct (RN_range (w * a0) 255 ltac:(lia) (proj1 Hprod) (proj2 Hprod)) as (a & -> & C0 & C1).
  exists t, w, a. change (inject_Z 255) with 255 in C1. repeat split; assumption.
Qed.

Lemma falloff_range radius d :
  falloff radius d = NaN \/ exists q, falloff radius d = Fin q /\ 0 <= q <= 1.
Proof.
  unfold falloff. destruct (fsub (Fin 1) (fdiv d radius)) as [s| | | |] eqn:E.
  5: { left. reflexivity. }
  all: right.
  all: match goal with
       | |- exists q, clip ?v _ _ = _ /\ _ =>
           destruct (clip_range v 1 ltac:(reflexivity) ltac:(discriminate))
             as (q & -> & H0 & H1); eauto
       end.
Qed.

(** The clipped alpha is in [0, 255], and the conversion to 8 bits cuts it to
    its integer part without wrapping. *)
Lemma clipped_alpha_byte (a : f32) :
  (a = NaN /\ astype_uint8 (clip a (Fin 0) (Fin 255)) = 0%Z) \/
  exists q, clip a (Fin 0) (Fin 255) = Fin q /\ 0 <= q <= 255 /\
            astype_uint8 (clip a (Fin 0) (Fin 255)) = Qfloor q /\
            (0 <= astype_uint8 (clip a (Fin 0) (Fin 255)) <= 255)%Z.
Proof.
  destruct (is_nan a) eqn:E.
  - left. destruct a; try discriminate. split; reflexivity.
  - right. assert (Ha : a <> NaN) by (intros ->; discriminate).
    destruct (clip_range a 255 ltac:(reflexivity) Ha) as (q & -> & H0 & H1).
    destruct (astype_uint8_floor q H0 H1) as [Eq Hr].
    exists q. rewrite Eq. auto.
Qed.

Lemma alpha_u8_range radius alpha0 power d : is_uint8 (alpha_u8 radius alpha0 power d).
Proof.
  unfold alpha_u8, is_uint8.
  destruct (clipped_alpha_byte (alpha_f radius alpha0 power d))
    as [[_ ->] | (q & _ & _ & _ & H)]; [lia | exact H].
Qed.

Lemma glow_OUT_pos : (0 < OUT)%nat.
Proof. unfold OUT. lia. Qed.

Lemma glow_white_pixel x y :
  (x < OUT)%nat -> (y < OUT)%nat -> get transparent_black glow_white x y = RGBA 255 255 255 0.
Proof.
  intros Hx Hy. unfold glow_white.
  rewrite (get_map_px _ transparent_black transparent_black OUT OUT)
    by (assumption || apply rect_tabulate).
  unfold glow_zeros, new. now rewrite get_tabulate.
Qed.

(** The pixel [make_glow_png] writes into [glow_rgba] before the blur. *)
Lemma glow_rgba_pixel center radius alpha0 power x y :
  (x < OUT)%nat -> (y < OUT)%nat ->
  get transparent_black (glow_rgba center radius alpha0 power) x y
  = RGBA 255 255 255
      (alpha_u8 (to_f32 radius) (to_f32 alpha0) (to_f32 power) (dist_at center x y)).
Proof.
  intros Hx Hy. unfold glow_rgba. rewrite get_tabulate by assumption.
  cbv zeta. now rewrite glow_white_pixel.
Qed.

Lemma glow_rgba_rect center radius alpha0 power :
  rect OUT OUT (glow_rgba center radius alpha0 power).
Proof. apply rect_tabulate. Qed.

Lemma pre_blur_alpha_eq center radius alpha0 power x y :
  (x < OUT)%nat -> (y < OUT)%nat ->
  pre_blur_alpha center radius alpha0 power x y
  = alpha_u8 (to_f32 radius) (to_f32 alpha0) (to_f32 power) (dist_at center x y).
Proof. intros Hx Hy. unfold pre_blur_alpha. now rewrite glow_rgba_pixel. Qed.

End WithNumpy.

End GlowFacts.

(** ** A reference power

    [t ** p] as [t], [1] or [1 / t] for a positive, zero or negative
    exponent: what numpy's [power] returns at the exponents [1], [0] and [-1]
    and at the bases [1] and [0], and a stand-in that meets what the results
    below assume of it elsewhere. *)

Module ReferencePower.

Import F32Facts FloatOps.
Import Lqa.
Local Open Scope Q_scope.

Definition power_by_sign (t p : f32) : f32 :=
  match fval t, fval p with
  | Some _, Some b =>
      match sgn b with
      | Eq => Fin 1
      | Lt => t
      | Gt => fdiv (Fin 1) t
      end
  | _, _ => NaN
  end.

#[local] Instance reference_numpy : Numpy := {
  power32 := power_by_sign
}.

Lemma reference_power_fixed : power_fixed reference_numpy.
Proof.
  split.
  - intros p. cbn [power32 reference_numpy]. unfold power_by_sign. cbn [fval].
    destruct (sgn p); reflexivity.
  - intros p Hp. cbn [power32 reference_numpy]. unfold power_by_sign. cbn [fval].
    now rewrite sgn_pos.
Qed.

Lemma reference_power_monotone : power_monotone reference_numpy.
Proof.
  intros t1 t2 p H0 H12 H1 Hp. exists t1, t2.
  cbn [power32 reference_numpy]. unfold power_by_sign. cbn [fval]. rewrite (sgn_pos p Hp). auto.
Qed.

End ReferencePower.

(** * The claims about the glow *)

Import Glow F32Facts FloatOps GlowFacts.



(** [F32] and Stdlib's binary32 give the same floats: on single operations,
    at the ends of the range, on zeros of either sign, and on the falloff of
    the pixels used below. *)
Example binary32_agrees :
  Float32.value (Float32.div (Float32.of_int 19) (Float32.of_int 10)) = RN (19 # 10) /\
  Float32.value (Float32.div (Float32.of_int 1) (Float32.of_int 3)) = RN (1 # 3) /\
  Float32.value (Float32.sqrt (Float32.of_int 2)) = fsqrt (Fin 2) /\
  Float32.value (Float32.of_scaled 5121 (-3)) = RN (5121 # 8) /\
  Float32.value (Float32.of_scaled 1 (-150)) = RN (pow2 (-150)) /\
  Float32.value (Float32.of_scaled 3 (-150)) = RN (3 * pow2 (-150)) /\
  Float32.value (Float32.of_scaled 1 128) = RN (pow2 128) /\
  Float32.value (Float32.of_scaled (-1) (-200)) = RN (- pow2 (-200)) /\
  Float32.value (Float32.div (Float32.of_int 3) (Float32.of_scaled (-1) (-200)))
  = fdiv (Fin 3) (RN (- pow2 (-200))) /\
  Float32.value (Float32.mul (Float32.of_int 0) (Float32.of_int (-5)))
  = fmul (Fin 0) (Fin (-5)) /\
  Float32.value (Float32.sub (Float32.of_int 5) (Float32.of_int 5))
  = fsub (Fin 5) (Fin 5) /\
  Float32.value (Float32.falloff (Float32.of_int 280)
                   (Float32.dist (Float32.of_int 700) (Float32.of_int 500)
                      (Float32.of_int 512) (Float32.of_int 410)))
  = falloff (Fin 280) (dist_at default_center 700 500) /\
  Float32.value (Float32.falloff (Float32.of_int 280)
                   (Float32.dist (Float32.of_int 345) (Float32.of_int 563)
                      (Float32.of_scaled 4195123 (-13)) (Float32.of_scaled 13438157 (-15))))
  = falloff (Fin 280) (dist_at (4195123 # 8192, 13438157 # 32768)%Q 345 563) /\
  Float32.value (Float32.falloff (Float32.of_int 280)
                   (Float32.dist (Float32.of_int 294) (Float32.of_int 349)
                      (Float32.of_scaled 4195123 (-13)) (Float32.of_scaled 13438157 (-15))))
  = falloff (Fin 280) (dist_at (4195123 # 8192, 13438157 # 32768)%Q 294 349).
Proof. vm_compute. repeat split. Qed.

(** C2. Alpha monotonicity, for a centre with integer coordinates: when the
    radius and the exponent are positive floats and [alpha0] is a finite
    one, and numpy's [power] does not decrease in its base, of two pixels the
    one nearer to the centre has the larger or equal alpha before the blur,
    and a pixel at distance [>= radius] has alpha exactly [0]. *)
Theorem glow_alpha_monotone `{N : Numpy} (Hfix : power_fixed N) (Hmono : power_monotone N)
    (cx cy : Z) (radius alpha0 power : Q) :
  (-1024 <= cx <= 2048)%Z -> (-1024 <= cy <= 2048)%Z ->
  is_positive (to_f32 radius) -> is_finite (to_f32 alpha0) -> is_positive (to_f32 power) ->
  let a := pre_blur_alpha (inject_Z cx, inject_Z cy) radius alpha0 power in
  (forall x1 y1 x2 y2,
     (x1 < Glow.OUT)%nat -> (y1 < Glow.OUT)%nat -> (x2 < Glow.OUT)%nat -> (y2 < Glow.OUT)%nat ->
     (sq_distance cx cy x1 y1 <= sq_distance cx cy x2 y2)%Z ->
     (a x2 y2 <= a x1 y1)%Z) /\
  (forall x y, (x < Glow.OUT)%nat -> (y < Glow.OUT)%nat ->
     (radius * radius <= inject_Z (sq_distance cx cy x y))%Q ->
     a x y = 0%Z).
Proof.
  intros Hcx Hcy Hr Ha Hp. cbv zeta.
  assert (Hrad : (0 <= radius)%Q).
  { destruct (Qlt_le_dec radius 0) as [Hneg | Hge]; [exfalso | exact Hge].
    pose proof (RN_nonpos radius (Qlt_le_weak _ _ Hneg)) as H.
    unfold to_f32 in Hr. destruct (RN radius); cbn [fle fval is_positive] in *;
      try contradiction. Lqa.lra. }
  assert (Er : fsqrt (Fin (radius * radius)) = to_f32 radius) by now apply fsqrt_square.
  destruct (to_f32 radius) as [r| | | |] eqn:Eradius; cbn [is_positive] in Hr;
    try contradiction.
  destruct (to_f32 power) as [p| | | |] eqn:Epower; cbn [is_positive] in Hp;
    try contradiction.
  split.
  - intros x1 y1 x2 y2 Hx1 Hy1 Hx2 Hy2 Hd.
    rewrite !pre_blur_alpha_eq by assumption.
    rewrite Eradius, Epower. rewrite !dist_at_exact by assumption.
    apply alpha_u8_antitone; try assumption.
    apply fsqrt_mono.
    + rewrite <- (Zle_Qle 0). apply sq_distance_nonneg.
    + now rewrite <- Zle_Qle.
  - intros x y Hx Hy Hd.
    rewrite pre_blur_alpha_eq by assumption.
    rewrite Eradius, Epower. rewrite dist_at_exact by assumption.
    apply alpha_u8_outside; try assumption.
    rewrite <- Er. apply fsqrt_mono; [|exact Hd].
    apply Qmult_le_0_compat; exact Hrad.
Qed.

Lemma glow_alpha_monotone_witness :
  power_fixed ReferencePower.reference_numpy /\
  power_monotone ReferencePower.reference_numpy /\
  (@pre_blur_alpha ReferencePower.reference_numpy
      default_center default_radius default_alpha0 default_power 792 410
   <= @pre_blur_alpha ReferencePower.reference_numpy
      default_center default_radius default_alpha0 default_power 512 410)%Z /\
  @pre_blur_alpha ReferencePower.reference_numpy
     default_center default_radius default_alpha0 default_power 792 410 = 0%Z.
Proof.
  assert (Hc : (-1024 <= 512 <= 2048)%Z) by lia.
  assert (Hc' : (-1024 <= 410 <= 2048)%Z) by lia.
  assert (Hr : is_positive (to_f32 default_radius)) by (vm_compute; reflexivity).
  assert (Ha : is_finite (to_f32 default_alpha0)) by exact I.
  assert (Hp : is_positive (to_f32 default_power)) by (vm_compute; reflexivity).
  pose proof (@glow_alpha_monotone ReferencePower.reference_numpy
                ReferencePower.reference_power_fixed ReferencePower.reference_power_monotone
                512 410 default_radius default_alpha0 default_power Hc Hc' Hr Ha Hp)
    as [Hmono Hout].
  split; [exact ReferencePower.reference_power_fixed|].
  split; [exact ReferencePower.reference_power_monotone|].
  split.
  - apply Hmono; try (unfold Glow.OUT; lia). vm_compute. discriminate.
  - apply Hout; try (unfold Glow.OUT; lia). vm_compute. discriminate.
Defined.

(** The claim as worded fails on the code.  With the centre at the floats
    nearest to [(512.1, 410.1)], radius [280], [alpha0 = 157] and exponent
    [1], pixel [(345, 563)] is nearer to the centre than pixel [(294, 349)],
    both inside the radius, and gets the smaller alpha, [29] against [30]:
    the offsets from the centre are rounded.  With exponent [0], where
    [t ** 0 = 1], the pixel [(792, 410)] at distance [280], on the radius,
    has alpha [185]; and with radius [-1] the centre pixel, at a distance
    above the radius, has alpha [185]. *)
Lemma glow_alpha_order_broken :
  (let c := (4195123 # 8192, 13438157 # 32768)%Q in
   let sq (x y : Q) := ((x - fst c) ^ 2 + (y - snd c) ^ 2)%Q in
   (sq 345 563 < sq 294 349)%Q /\ (sq 294 349 <= 280 ^ 2)%Q /\
   @pre_blur_alpha ReferencePower.reference_numpy c 280 157 1 345 563 = 29%Z /\
   @pre_blur_alpha ReferencePower.reference_numpy c 280 157 1 294 349 = 30%Z) /\
  (sq_distance 512 410 792 410 = (280 * 280)%Z /\
   @pre_blur_alpha ReferencePower.reference_numpy default_center 280 185 0 792 410 = 185%Z) /\
  (sq_distance 512 410 512 410 = 0%Z /\ (-1 < 0)%Q /\
   @pre_blur_alpha ReferencePower.reference_numpy default_center (-1) 185 default_power 512 410
   = 185%Z).
Proof.
  cbv zeta. rewrite !pre_blur_alpha_eq by (unfold Glow.OUT; lia).
  vm_compute. repeat split; discriminate.
Qed.

(** C6. Clamp invariant: at every pixel the float [t] is in [0, 1] or a NaN;
    the float [alpha] is clipped to [0, 255] before it is converted, so the
    alpha written into the buffer is the integer part of the clipped value
    and lies in [0, 255] (a NaN is written as [0]); every channel of the
    buffer, and of the blurred image when the blur returns 8-bit images, is
    in [0, 255]; on an 8-bit mask every stage of [clean_mask] (closing,
    snap, closing, snap) holds values in [0, 255]; and when [alpha0] is in
    [0, 255], the radius and the exponent are positive floats and numpy's
    [power] keeps [0, 1], the floats [t], [t ** power] and [alpha] are in
    range as well, before any clip. *)
Theorem alpha_values_in_range `{L : Imaging} `{N : Numpy} (Hblur : blur_uint8 L)
    (center : Q * Q) (radius alpha0 : Q) (blur : R) (power : Q) (m : grid Z) :
  all_px is_uint8 m ->
  (forall x y, (x < Glow.OUT)%nat -> (y < Glow.OUT)%nat ->
     let d := dist_at center x y in
     let t := falloff (to_f32 radius) d in
     let a := alpha_f (to_f32 radius) (to_f32 alpha0) (to_f32 power) d in
     let written := pre_blur_alpha center radius alpha0 power x y in
     (t = NaN \/ exists q, t = Fin q /\ (0 <= q <= 1)%Q) /\
     ((a = NaN /\ written = 0%Z) \/
      exists q, clip a (Fin 0) (Fin 255) = Fin q /\ (0 <= q <= 255)%Q /\
                written = Qfloor q /\ (0 <= written <= 255)%Z)) /\
  all_px rgba_uint8 (glow_rgba center radius alpha0 power) /\
  all_px rgba_uint8 (glow_image center radius alpha0 blur power) /\
  (all_px is_uint8 (stage_m m) /\ all_px is_uint8 (stage_a m) /\
   all_px is_uint8 (stage_m2 m) /\ all_px is_uint8 (clean_mask m)) /\
  (power_fixed N -> power_monotone N ->
   is_positive (to_f32 radius) -> is_positive (to_f32 power) -> (0 <= alpha0 <= 255)%Q ->
   forall x y, (x < Glow.OUT)%nat -> (y < Glow.OUT)%nat ->
     let d := dist_at center x y in
     exists t w a,
       falloff (to_f32 radius) d = Fin t /\ (0 <= t <= 1)%Q /\
       power32 (Fin t) (to_f32 power) = Fin w /\ (0 <= w <= 1)%Q /\
       alpha_f (to_f32 radius) (to_f32 alpha0) (to_f32 power) d = Fin a /\
       (0 <= a <= 255)%Q).
Proof.
  intros Hm.
  assert (Hbuf : all_px rgba_uint8 (glow_rgba center radius alpha0 power)).
  { unfold glow_rgba. apply all_px_tabulate. intros x y Hx Hy. cbv zeta.
    rewrite glow_white_pixel by assumption. cbn [red green blue alpha].
    pose proof (alpha_u8_range (to_f32 radius) (to_f32 alpha0) (to_f32 power)
                  (dist_at center x y)) as Hr.
    unfold rgba_uint8, is_uint8 in *. cbn [red green blue alpha]. lia. }
  split; [|split; [exact Hbuf | split; [|split]]].
  - intros x y Hx Hy. cbv zeta. split; [apply falloff_range|].
    rewrite pre_blur_alpha_eq by assumption. unfold alpha_u8.
    destruct (clipped_alpha_byte
                (alpha_f (to_f32 radius) (to_f32 alpha0) (to_f32 power) (dist_at center x y)))
      as [[E1 E2] | (q & E1 & E2 & E3 & E4)].
    + left. split; assumption.
    + right. exists q. rewrite E1 in *. auto.
  - unfold glow_image. apply Hblur. exact Hbuf.
  - assert (Ha : all_px is_uint8 (stage_a m))
      by exact (all_px_impl _ _ _ snapped_uint8 (stage_a_snapped m)).
    repeat split.
    + unfold stage_m. now apply MinFilter_uint8, MaxFilter_uint8.
    + exact Ha.
    + unfold stage_m2. now apply MinFilter_uint8, MaxFilter_uint8.
    + exact (all_px_impl _ _ _ snapped_uint8 (stage_a2_snapped m)).
  - intros Hfix Hmono Hr Hp Ha x y Hx Hy. cbv zeta.
    apply alpha_f_range; try assumption. now apply dist_at_nonneg.
Qed.

Lemma alpha_values_in_range_witness :
  blur_uint8 Reference.reference /\
  all_px is_uint8 [[0; 3; 250]; [7; 8; 255]]%Z /\
  all_px rgba_uint8
    (@glow_image Reference.reference ReferencePower.reference_numpy
       default_center default_radius default_alpha0 default_blur default_power) /\
  all_px is_uint8 (clean_mask [[0; 3; 250]; [7; 8; 255]]%Z) /\
  (exists a,
     @alpha_f ReferencePower.reference_numpy (to_f32 default_radius) (to_f32 default_alpha0)
       (to_f32 default_power) (dist_at default_center 600 500) = Fin a /\
     (0 <= a <= 255)%Q).
Proof.
  assert (Hm : all_px is_uint8 [[0; 3; 250]; [7; 8; 255]]%Z).
  { unfold all_px, is_uint8. repeat constructor; lia. }
  pose proof (@alpha_values_in_range Reference.reference ReferencePower.reference_numpy
                Reference.reference_blur_uint8 default_center default_radius default_alpha0
                default_blur default_power _ Hm)
    as (_ & _ & Hblurred & (_ & _ & _ & Hclean) & Hfloat).
  split; [exact Reference.reference_blur_uint8|]. split; [exact Hm|].
  split; [exact Hblurred|]. split; [exact Hclean|].
  destruct (Hfloat ReferencePower.reference_power_fixed
              ReferencePower.reference_power_monotone
              ltac:(vm_compute; reflexivity) ltac:(vm_compute; reflexivity)
              ltac:(split; discriminate) 600%nat 500%nat
              ltac:(unfold Glow.OUT; lia) ltac:(unfold Glow.OUT; lia))
    as (t & w & a & _ & _ & _ & _ & Ea & Hrange).
  exists a. split; assumption.
Defined.

(** The float [alpha] itself is not confined to [0, 255].  With
    [alpha0 = 300] it is [300] at the centre pixel, which the clip brings to
    [255] before it is written; with [alpha0 = -5] it is [-5] there, written
    as [0]; and with the exponent [-1], where [t ** -1 = 1 / t], it is [370]
    at pixel [(652, 410)], half a radius from the centre, written as [255]. *)
Lemma alpha_float_out_of_range :
  (@alpha_f ReferencePower.reference_numpy (to_f32 default_radius) (to_f32 300)
     (to_f32 default_power) (dist_at default_center 512 410) = Fin 300 /\
   (255 < 300)%Q /\
   @pre_blur_alpha ReferencePower.reference_numpy default_center default_radius 300
     default_power 512 410 = 255%Z) /\
  (@alpha_f ReferencePower.reference_numpy (to_f32 default_radius) (to_f32 (-5))
     (to_f32 default_power) (dist_at default_center 512 410) = Fin (-5) /\
   (-5 < 0)%Q /\
   @pre_blur_alpha ReferencePower.reference_numpy default_center default_radius (-5)
     default_power 512 410 = 0%Z) /\
  (@alpha_f ReferencePower.reference_numpy (to_f32 default_radius) (to_f32 default_alpha0)
     (to_f32 (-1)) (dist_at default_center 652 410) = Fin 370 /\
   (255 < 370)%Q /\
   @pre_blur_alpha ReferencePower.reference_numpy default_center default_radius
     default_alpha0 (-1) 652 410 = 255%Z).
Proof.
  rewrite !pre_blur_alpha_eq by (unfold Glow.OUT; lia).
  vm_compute. repeat split.
Qed.

(** C7. The image [make_glow_png] saves is a square RGBA image, [OUT] by
    [OUT], and its colour channels are white, [(255, 255, 255)], at every
    pixel: before the blur by construction, and after it because the blur,
    whose kernel is normalised, leaves a flat band as it is. *)
Theorem glow_image_white `{L : Imaging} `{N : Numpy} (Hblur : blur_normalised L)
    (center : Q * Q) (radius alpha0 : Q) (blur : R) (power : Q) :
  rect Glow.OUT Glow.OUT (glow_image center radius alpha0 blur power) /\
  forall x y, (x < Glow.OUT)%nat -> (y < Glow.OUT)%nat ->
    let q := get transparent_black (glow_rgba center radius alpha0 power) x y in
    let p := get transparent_black (glow_image center radius alpha0 blur power) x y in
    (red q, green q, blue q) = (255, 255, 255)%Z /\
    (red p, green p, blue p) = (255, 255, 255)%Z.
Proof.
  unfold glow_image.
  destruct (Hblur blur Glow.OUT Glow.OUT _ (glow_rgba_rect center radius alpha0 power))
    as [Hrect Hflat].
  split; [exact Hrect|].
  assert (H255 : is_uint8 255) by (unfold is_uint8; lia).
  assert (Hpre : forall b, b <> Alpha -> forall x y,
            (x < Glow.OUT)%nat -> (y < Glow.OUT)%nat ->
            channel b (get transparent_black (glow_rgba center radius alpha0 power) x y)
            = 255%Z).
  { intros b Hb x y Hx Hy. rewrite glow_rgba_pixel by assumption.
    destruct b; cbn; congruence. }
  intros x y Hx Hy. cbv zeta. split.
  - rewrite glow_rgba_pixel by assumption. reflexivity.
  - pose proof (Hflat Red 255%Z H255 (Hpre Red ltac:(discriminate)) x y Hx Hy) as Hr.
    pose proof (Hflat Green 255%Z H255 (Hpre Green ltac:(discriminate)) x y Hx Hy) as Hg.
    pose proof (Hflat Blue 255%Z H255 (Hpre Blue ltac:(discriminate)) x y Hx Hy) as Hb.
    cbn [channel] in Hr, Hg, Hb. now rewrite Hr, Hg, Hb.
Qed.

Lemma glow_image_white_witness :
  blur_normalised Reference.reference /\
  rect Glow.OUT Glow.OUT
    (@glow_image Reference.reference ReferencePower.reference_numpy
       default_center default_radius default_alpha0 default_blur default_power).
Proof.
  split; [exact Reference.reference_blur|].
  exact (proj1 (@glow_image_white Reference.reference ReferencePower.reference_numpy
                  Reference.reference_blur
                  default_center default_radius default_alpha0 default_blur default_power)).
Defined.

(** * Further properties of the icon pipeline *)

Lemma cubic_ends (a b c d : R * R) : cubic a b c d 0 = a /\ cubic a b c d 1 = d.
Proof.
  destruct a as [a1 a2], d as [d1 d2]. unfold cubic. cbn [fst snd].
  split; f_equal; ring.
Qed.

Lemma pts_first (scale : nat) : nth 0 (pts scale) (0, 0)%R = p0 scale.
Proof.
  unfold pts. change 2000%nat with (S 1999). cbn [seq map nth].
  replace (INR 0 / 1999)%R with 0%R by (cbn [INR]; lra). apply cubic_ends.
Qed.

Lemma pts_last (scale : nat) : List.last (pts scale) (0, 0)%R = p3 scale.
Proof.
  unfold pts. change 2000%nat with (S 1999). rewrite seq_S, map_app. cbn [map Nat.add].
  rewrite last_last, INR_IZR_INZ. change (Z.of_nat 1999) with 1999%Z.
  replace (1999 / 1999)%R with 1%R by lra. apply cubic_ends.
Qed.

(** X1. The sampled polyline starts at [B(0) = p0] and ends at [B(1) = p3], which
    are the two points the caps are drawn around. *)
Theorem pts_endpoints (scale : nat) :
  (forall a b c d : R * R, cubic a b c d 0 = a /\ cubic a b c d 1 = d) /\
  nth 0 (pts scale) (0, 0)%R = p0 scale /\
  List.last (pts scale) (0, 0)%R = p3 scale.
Proof. split; [exact cubic_ends|]. split; [apply pts_first | apply pts_last]. Qed.

(** X2. The 3 by 3 pass of [clean_mask] changes nothing: the cleaned mask is
    the 5 by 5 closing of the input, snapped once. *)
Theorem clean_mask_is_snapped_closing (m : grid Z) :
  clean_mask m = map_px snap (MinFilter 5 (MaxFilter 5 m)).
Proof.
  destruct (clean_mask_renders m) as (_ & _ & Hr & E).
  destruct (renders_map_px snap _ _ _ _ (stage_m_renders m)) as (_ & _ & Hr' & E').
  apply (grid_ext 0%Z (width m) (height m)); [assumption..|].
  intros x y Hx Hy.
  assert (Hp : inside (width m) (height m) (x, y)) by now split.
  change (px (clean_mask m) (x, y) = px (map_px snap (stage_m m)) (x, y)).
  rewrite (E _ Hp), (E' _ Hp). now apply cleanup_fn_closing.
Qed.

(** * Further properties of clean_mask

    Read off the closing: what the cleanup keeps, what it fills and what it
    can never produce. *)

Module ClosingOrder.

Section Levels.

Context {P : Type} (dom : P -> Prop) {N : P -> P -> Prop}
        {dil ero : (P -> Z) -> P -> Z} (M : morph dom N dil ero).

Local Open Scope Z_scope.

(** The closing is at least [c] exactly where every window through the point
    holds a value of at least [c]. *)
Lemma closing_ge f p c :
  dom p -> c <= ero (dil f) p <-> forall p', N p p' -> exists q, N p' q /\ c <= f q.
Proof.
  intros Hp. split.
  - intros Hc p' Hp'.
    assert (Hd : dom p') by exact (nb_dom _ _ _ _ M _ _ Hp Hp').
    destruct (dil_att _ _ _ _ M f p' Hd) as [q [Hq E]].
    exists q. split; [exact Hq|]. rewrite <- E.
    etransitivity; [exact Hc|]. now apply (ero_lb _ _ _ _ M).
  - intros Hall.
    destruct (ero_att _ _ _ _ M (dil f) p Hp) as [p' [Hp' ->]].
    destruct (Hall p' Hp') as [q [Hq Hc]].
    etransitivity; [exact Hc|].
    apply (dil_ub _ _ _ _ M); [|exact Hq]. exact (nb_dom _ _ _ _ M _ _ Hp Hp').
Qed.

(** It is below [c] exactly where some window through the point holds only
    values below [c]. *)
Lemma closing_lt f p c :
  dom p -> ero (dil f) p < c <-> exists p', N p p' /\ forall q, N p' q -> f q < c.
Proof.
  intros Hp. split.
  - intros Hlt.
    destruct (ero_att _ _ _ _ M (dil f) p Hp) as [p1 [Hp1 E1]].
    assert (Hd1 : dom p1) by exact (nb_dom _ _ _ _ M _ _ Hp Hp1).
    exists p1. split; [exact Hp1|]. intros q Hq.
    pose proof (dil_ub _ _ _ _ M f p1 q Hd1 Hq) as Hub.
    rewrite E1 in Hlt. lia.
  - intros (p' & Hp' & Hall).
    destruct (Z.lt_ge_cases (ero (dil f) p) c) as [Hlt | Hge]; [exact Hlt|].
    destruct (proj1 (closing_ge f p c Hp) Hge p' Hp') as [q [Hq Hc]].
    specialize (Hall q Hq). lia.
Qed.

(** The closing writes a value of the image, read at most two windows away. *)
Lemma closing_selects f p :
  dom p -> exists p' q, N p p' /\ N p' q /\ ero (dil f) p = f q.
Proof.
  intros Hp.
  destruct (ero_att _ _ _ _ M (dil f) p Hp) as [p' [Hp' ->]].
  assert (Hd : dom p') by exact (nb_dom _ _ _ _ M _ _ Hp Hp').
  destruct (dil_att _ _ _ _ M f p' Hd) as [q [Hq ->]].
  now exists p', q.
Qed.

Lemma closing_mono f g : below dom f g -> below dom (ero (dil f)) (ero (dil g)).
Proof. intros L. apply (ero_mono _ M), (dil_mono _ M), L. Qed.

End Levels.

End ClosingOrder.

Module Closing.

Import ClosingOrder.

(** The value of the 5 by 5 closing of [m] at a pixel. *)
Definition closing5 (m : grid Z) (p : nat * nat) : Z :=
  filter_at Z.min (width m) (height m) 2 (filter_at Z.max (width m) (height m) 2 (px m)) p.

(** Pixel [(x, y)] of the cleaned mask is the snapped closing. *)
Lemma clean_mask_px m x y :
  (x < width m)%nat -> (y < height m)%nat ->
  get 0%Z (clean_mask m) x y = snap (closing5 m (x, y)).
Proof.
  intros Hx Hy. destruct (clean_mask_renders m) as (_ & _ & _ & E).
  assert (Hp : inside (width m) (height m) (x, y)) by now split.
  change (px (clean_mask m) (x, y) = snap (closing5 m (x, y))).
  rewrite (E _ Hp). now apply cleanup_fn_closing.
Qed.

Lemma closing5_above m p : inside (width m) (height m) p -> (px m p <= closing5 m p)%Z.
Proof. apply (closing_extensive (inside (width m) (height m)) (window_morph _ _ 2)). Qed.

Lemma closing5_ge m p c :
  inside (width m) (height m) p ->
  (c <= closing5 m p)%Z <->
  forall p', neighbour 2 (width m) (height m) p p' ->
    exists q, neighbour 2 (width m) (height m) p' q /\ (c <= px m q)%Z.
Proof. apply (closing_ge _ (window_morph (width m) (height m) 2)). Qed.

Lemma closing5_lt m p c :
  inside (width m) (height m) p ->
  (closing5 m p < c)%Z <->
  exists p', neighbour 2 (width m) (height m) p p' /\
    forall q, neighbour 2 (width m) (height m) p' q -> (px m q < c)%Z.
Proof. apply (closing_lt _ (window_morph (width m) (height m) 2)). Qed.

Lemma closing5_selects m p :
  inside (width m) (height m) p ->
  exists p' q, neighbour 2 (width m) (height m) p p' /\
               neighbour 2 (width m) (height m) p' q /\ closing5 m p = px m q.
Proof. apply (closing_selects _ (window_morph (width m) (height m) 2)). Qed.

Lemma closing5_mono m1 m2 :
  width m1 = width m2 -> height m1 = height m2 ->
  below (inside (width m1) (height m1)) (px m1) (px m2) ->
  below (inside (width m1) (height m1)) (closing5 m1) (closing5 m2).
Proof.
  intros Ew Eh L. unfold closing5. rewrite <- Ew, <- Eh.
  apply (closing_mono _ (window_morph (width m1) (height m1) 2)), L.
Qed.

Lemma snap_ge_200 v : (200 <= v)%Z <-> snap v = 255%Z.
Proof. unfold snap, snap_low, snap_high. repeat (case Z.ltb_spec || case Z.leb_spec); lia. Qed.

Lemma snap_lt_8 v : (v < 8)%Z <-> snap v = 0%Z.
Proof. unfold snap, snap_low, snap_high. repeat (case Z.ltb_spec || case Z.leb_spec); lia. Qed.

Lemma snap_ge_8 v : (8 <= v)%Z <-> (8 <= snap v)%Z.
Proof. unfold snap, snap_low, snap_high. repeat (case Z.ltb_spec || case Z.leb_spec); lia. Qed.

Lemma snap_fixes v : v = 0%Z \/ v = 255%Z -> snap v = v.
Proof. intros [-> | ->]; reflexivity. Qed.

End Closing.

Import Closing.

(** X4. [clean_mask] returns a mask of the size of its input: the same width
    and height, every row of that width. *)
Theorem clean_mask_keeps_size (m : grid Z) :
  width (clean_mask m) = width m /\ height (clean_mask m) = height m /\
  rect (width m) (height m) (clean_mask m).
Proof. destruct (clean_mask_renders m) as (Hw & Hh & Hr & _). auto. Qed.

(** X5. [clean_mask] never lowers a pixel below its snapped input value: a
    pixel that was at least [8] stays at least [8] (it is not erased), and a
    pixel that was at least [200] comes out fully opaque, [255]. *)
Theorem clean_mask_never_erases (m : grid Z) (x y : nat) :
  (x < width m)%nat -> (y < height m)%nat ->
  let v := get 0%Z m x y in
  let v' := get 0%Z (clean_mask m) x y in
  (snap_high (snap_low v) <= v')%Z /\
  (8 <= v -> 8 <= v')%Z /\
  (200 <= v -> v' = 255)%Z.
Proof.
  intros Hx Hy. cbv zeta. rewrite clean_mask_px by assumption.
  assert (Hp : inside (width m) (height m) (x, y)) by now split.
  pose proof (closing5_above m (x, y) Hp) as Hc. unfold px in Hc. cbn [fst snd] in Hc.
  split; [apply snap_monotone, Hc|]. split; intros Hv.
  - apply (proj1 (snap_ge_8 _)). lia.
  - apply (proj1 (snap_ge_200 _)). lia.
Qed.

Lemma clean_mask_never_erases_witness :
  let m := [[0; 3; 250]; [7; 8; 255]]%Z in
  (2 < width m)%nat /\ (0 < height m)%nat /\ get 0%Z (clean_mask m) 2 0 = 255%Z.
Proof.
  cbv zeta. split; [cbn; lia|]. split; [cbn; lia|].
  refine (proj2 (proj2 (clean_mask_never_erases [[0; 3; 250]; [7; 8; 255]]%Z 2 0 _ _)) _);
    cbn; lia.
Defined.

(** X6. Which pixels [clean_mask] makes opaque and which transparent.  A
    pixel comes out [255] exactly when every 5 by 5 window that contains it
    (windows are clipped to the image) holds an input value of at least
    [200]; it comes out [0] exactly when some such window holds only input
    values below [8].  [near 2 n i j] says that [j] is a coordinate of the
    image at most [2] away from [i]. *)
Theorem clean_mask_opaque_transparent (m : grid Z) (x y : nat) :
  (x < width m)%nat -> (y < height m)%nat ->
  let w := width m in
  let h := height m in
  (get 0%Z (clean_mask m) x y = 255%Z <->
   forall x1 y1, near 2 w x x1 -> near 2 h y y1 ->
     exists x2 y2, near 2 w x1 x2 /\ near 2 h y1 y2 /\ (200 <= get 0 m x2 y2)%Z) /\
  (get 0%Z (clean_mask m) x y = 0%Z <->
   exists x1 y1, near 2 w x x1 /\ near 2 h y y1 /\
     forall x2 y2, near 2 w x1 x2 -> near 2 h y1 y2 -> (get 0 m x2 y2 < 8)%Z).
Proof.
  intros Hx Hy. cbv zeta. rewrite clean_mask_px by assumption.
  assert (Hp : inside (width m) (height m) (x, y)) by now split.
  pose proof (closing5_ge m (x, y) 200 Hp) as [G200a G200b].
  pose proof (closing5_lt m (x, y) 8 Hp) as [G8a G8b].
  pose proof (snap_ge_200 (closing5 m (x, y))) as [S200a S200b].
  pose proof (snap_lt_8 (closing5 m (x, y))) as [S8a S8b].
  split; split.
  - intros E x1 y1 Hx1 Hy1.
    destruct (G200a (S200b E) (x1, y1) (conj Hx1 Hy1)) as [[x2 y2] [[Hx2 Hy2] Hv]].
    exists x2, y2. auto.
  - intros Hall. apply S200a, G200b. intros [x1 y1] [Hx1 Hy1].
    destruct (Hall x1 y1 Hx1 Hy1) as (x2 & y2 & Hx2 & Hy2 & Hv).
    exists (x2, y2). split; [now split | exact Hv].
  - intros E. destruct (G8a (S8b E)) as [[x1 y1] [[Hx1 Hy1] Hall]].
    exists x1, y1. split; [exact Hx1|]. split; [exact Hy1|].
    intros x2 y2 Hx2 Hy2. exact (Hall (x2, y2) (conj Hx2 Hy2)).
  - intros (x1 & y1 & Hx1 & Hy1 & Hall). apply S8a, G8b.
    exists (x1, y1). split; [now split|].
    intros [x2 y2] [Hx2 Hy2]. exact (Hall x2 y2 Hx2 Hy2).
Qed.

Lemma clean_mask_opaque_transparent_witness :
  let m := [[0; 3; 250]; [7; 8; 255]]%Z in
  (2 < width m)%nat /\ (0 < height m)%nat /\
  (get 0%Z (clean_mask m) 2 0 = 255%Z <->
   forall x1 y1, near 2 3 2 x1 -> near 2 2 0 y1 ->
     exists x2 y2, near 2 3 x1 x2 /\ near 2 2 y1 y2 /\ (200 <= get 0 m x2 y2)%Z).
Proof.
  cbv zeta.
  assert (Hx : (2 < width [[0; 3; 250]; [7; 8; 255]]%Z)%nat) by (cbn; lia).
  assert (Hy : (0 < height [[0; 3; 250]; [7; 8; 255]]%Z)%nat) by (cbn; lia).
  split; [exact Hx|]. split; [exact Hy|].
  exact (proj1 (clean_mask_opaque_transparent [[0; 3; 250]; [7; 8; 255]]%Z 2 0 Hx Hy)).
Defined.

(** X7. [clean_mask] is monotone: of two masks of one size, the one that
    is pixel by pixel the larger has the larger cleaned mask, pixel by
    pixel. *)
Theorem clean_mask_monotone (m1 m2 : grid Z) :
  width m1 = width m2 -> height m1 = height m2 ->
  (forall x y, (x < width m1)%nat -> (y < height m1)%nat ->
     (get 0 m1 x y <= get 0 m2 x y)%Z) ->
  forall x y, (x < width m1)%nat -> (y < height m1)%nat ->
    (get 0 (clean_mask m1) x y <= get 0 (clean_mask m2) x y)%Z.
Proof.
  intros Ew Eh L x y Hx Hy.
  rewrite (clean_mask_px m1 x y Hx Hy).
  rewrite (clean_mask_px m2 x y) by congruence.
  apply snap_monotone. apply (closing5_mono m1 m2 Ew Eh); [|now split].
  intros [x' y'] [Hx' Hy']. apply L; assumption.
Qed.

Lemma clean_mask_monotone_witness :
  let m1 := [[0; 3; 250]; [7; 8; 255]]%Z in
  let m2 := [[0; 9; 250]; [7; 8; 255]]%Z in
  (get 0 (clean_mask m1) 1 0 <= get 0 (clean_mask m2) 1 0)%Z.
Proof.
  cbv zeta.
  refine (clean_mask_monotone [[0; 3; 250]; [7; 8; 255]]%Z [[0; 9; 250]; [7; 8; 255]]%Z
            eq_refl eq_refl _ 1%nat 0%nat _ _); [|cbn; lia..].
  intros x y Hx Hy. cbn in Hx, Hy.
  destruct x as [|[|[|x]]]; [..|lia]; (destruct y as [|[|y]]; [..|lia]); cbn; lia.
Defined.

(** X8. A flat mask stays flat: cleaning the [w] by [h] mask of constant
    value [c] gives the [w] by [h] mask of constant value [snap c] ([0] below
    [8], [255] from [200] on, [c] in between), for every size, the empty ones
    included. *)
Theorem clean_mask_flat (w h : nat) (c : Z) :
  clean_mask (new w h c) = new w h (snap_high (snap_low c)).
Proof.
  destruct h as [|h]; [reflexivity|].
  assert (Hh : (0 < S h)%nat) by lia.
  destruct (clean_mask_renders (new w (S h) c)) as (_ & _ & Hr & _).
  assert (Ew : width (new w (S h) c) = w) by now apply width_tabulate.
  assert (Eh : height (new w (S h) c) = S h) by apply height_tabulate.
  rewrite Ew, Eh in Hr.
  apply (grid_ext 0%Z w (S h)); [exact Hr | apply rect_tabulate |].
  intros x y Hx Hy.
  rewrite clean_mask_px by congruence.
  unfold new at 2. rewrite get_tabulate by assumption.
  change (snap (closing5 (new w (S h) c) (x, y)) = snap c). f_equal.
  destruct (closing5_selects (new w (S h) c) (x, y)) as (p' & [qx qy] & _ & Hq & ->).
  { split; cbn [fst snd]; congruence. }
  destruct Hq as [[Hqx _] [Hqy _]]. cbn [fst snd] in Hqx, Hqy.
  rewrite Ew in Hqx. rewrite Eh in Hqy.
  unfold px, new. cbn [fst snd]. now rewrite get_tabulate.
Qed.

(** X9. [clean_mask] invents no value: every pixel of the cleaned mask is
    the snapped value of an input pixel at most [4] columns and [4] rows
    away. *)
Theorem clean_mask_selects (m : grid Z) (x y : nat) :
  (x < width m)%nat -> (y < height m)%nat ->
  exists x' y',
    (x' < width m /\ y' < height m /\
     x' <= x + 4 /\ x <= x' + 4 /\ y' <= y + 4 /\ y <= y' + 4)%nat /\
    get 0%Z (clean_mask m) x y = snap_high (snap_low (get 0%Z m x' y')).
Proof.
  intros Hx Hy. rewrite clean_mask_px by assumption.
  destruct (closing5_selects m (x, y)) as ([px' py'] & [qx qy] & Hp' & Hq & E);
    [now split|].
  exists qx, qy. split.
  - destruct Hp' as [(_ & A1 & A2) (_ & A3 & A4)].
    destruct Hq as [(B0 & B1 & B2) (B3 & B4 & B5)].
    cbn [fst snd] in *. lia.
  - rewrite E. reflexivity.
Qed.

Lemma clean_mask_selects_witness :
  let m := [[0; 3; 250]; [7; 8; 255]]%Z in
  exists x' y',
    (x' < width m /\ y' < height m /\
     x' <= 1 + 4 /\ 1 <= x' + 4 /\ y' <= 0 + 4 /\ 0 <= y' + 4)%nat /\
    get 0%Z (clean_mask m) 1 0 = snap_high (snap_low (get 0%Z m x' y')).
Proof.
  cbv zeta.
  refine (clean_mask_selects [[0; 3; 250]; [7; 8; 255]]%Z 1 0 _ _); cbn; lia.
Defined.

Lemma get_all_px (P : Z -> Prop) (m : grid Z) x y : P 0%Z -> all_px P m -> P (get 0%Z m x y).
Proof.
  intros H0 Hall. unfold get, all_px in *. rewrite List.Forall_forall in Hall.
  destruct (nth_in_or_default y m []) as [Hin | ->].
  - specialize (Hall _ Hin). rewrite List.Forall_forall in Hall.
    destruct (nth_in_or_default x (nth y m []) 0%Z) as [Hin' | ->].
    + now apply Hall.
    + exact H0.
  - destruct x; exact H0.
Qed.

Lemma stage_m_px m x y :
  (x < width m)%nat -> (y < height m)%nat ->
  get 0%Z (MinFilter 5 (MaxFilter 5 m)) x y = closing5 m (x, y).
Proof.
  intros Hx Hy. destruct (stage_m_renders m) as (_ & _ & _ & E).
  assert (Hp : inside (width m) (height m) (x, y)) by now split.
  exact (E _ Hp).
Qed.

(** A pixel of a two-level mask: fully transparent or fully opaque. *)
Definition binary (v : Z) : Prop := (v = 0 \/ v = 255)%Z.

(** X10. On a mask that holds only [0] and [255] the snaps and the 3 by 3
    pass do nothing: [clean_mask] is the 5 by 5 closing
    [MinFilter(5)(MaxFilter(5)(m))], and its result holds only [0] and
    [255]. *)
Theorem clean_mask_binary (m : grid Z) :
  all_px binary m ->
  clean_mask m = MinFilter 5 (MaxFilter 5 m) /\ all_px binary (clean_mask m).
Proof.
  intros Hm.
  assert (H0 : binary 0%Z) by now left.
  assert (Hmax : all_px binary (MaxFilter 5 m)).
  { apply rank_filter_all_px; [apply max_selects|]. intros x y. now apply get_all_px. }
  assert (Hmin : all_px binary (MinFilter 5 (MaxFilter 5 m))).
  { apply rank_filter_all_px; [apply min_selects|]. intros x y. now apply get_all_px. }
  assert (E : clean_mask m = MinFilter 5 (MaxFilter 5 m)).
  { destruct (clean_mask_renders m) as (_ & _ & Hr & _).
    destruct (stage_m_renders m) as (_ & _ & Hr' & _).
    apply (grid_ext 0%Z (width m) (height m)); [exact Hr | exact Hr' |].
    intros x y Hx Hy.
    pose proof (get_all_px binary _ x y H0 Hmin) as Hb.
    rewrite clean_mask_px by assumption.
    rewrite stage_m_px in * by assumption.
    now apply snap_fixes. }
  split; [exact E|]. rewrite E. exact Hmin.
Qed.

Lemma clean_mask_binary_witness :
  let m := [[0; 255; 0]; [255; 0; 255]]%Z in
  clean_mask m = MinFilter 5 (MaxFilter 5 m) /\ all_px binary (clean_mask m).
Proof.
  cbv zeta. refine (clean_mask_binary [[0; 255; 0]; [255; 0; 255]]%Z _).
  unfold binary. repeat constructor; lia.
Defined.

(** * Further properties of the arc geometry *)

Module ArcFacts.

Local Open Scope R_scope.

(** A Bezier coordinate is a convex combination of the control coordinates. *)
Lemma bernstein_hull (a b c d lo hi t : R) :
  0 <= t <= 1 -> lo <= a <= hi -> lo <= b <= hi -> lo <= c <= hi -> lo <= d <= hi ->
  lo <= (1 - t) ^ 3 * a + 3 * (1 - t) ^ 2 * t * b + 3 * (1 - t) * t ^ 2 * c + t ^ 3 * d <= hi.
Proof.
  intros Ht Ha Hb Hc Hd.
  assert (H0 : 0 <= (1 - t) ^ 3) by (apply pow_le; lra).
  assert (H1 : 0 <= 3 * (1 - t) ^ 2 * t).
  { apply Rmult_le_pos; [|lra]. apply Rmult_le_pos; [lra|]. apply pow_le; lra. }
  assert (H2 : 0 <= 3 * (1 - t) * t ^ 2).
  { apply Rmult_le_pos; [|apply pow_le; lra]. apply Rmult_le_pos; lra. }
  assert (H3 : 0 <= t ^ 3) by (apply pow_le; lra).
  assert (Hsum : (1 - t) ^ 3 + 3 * (1 - t) ^ 2 * t + 3 * (1 - t) * t ^ 2 + t ^ 3 = 1) by ring.
  set (w0 := (1 - t) ^ 3) in *. set (w1 := 3 * (1 - t) ^ 2 * t) in *.
  set (w2 := 3 * (1 - t) * t ^ 2) in *. set (w3 := t ^ 3) in *.
  assert (La : 0 <= w0 * (a - lo)) by (apply Rmult_le_pos; lra).
  assert (Lb : 0 <= w1 * (b - lo)) by (apply Rmult_le_pos; lra).
  assert (Lc : 0 <= w2 * (c - lo)) by (apply Rmult_le_pos; lra).
  assert (Ld : 0 <= w3 * (d - lo)) by (apply Rmult_le_pos; lra).
  assert (Ua : 0 <= w0 * (hi - a)) by (apply Rmult_le_pos; lra).
  assert (Ub : 0 <= w1 * (hi - b)) by (apply Rmult_le_pos; lra).
  assert (Uc : 0 <= w2 * (hi - c)) by (apply Rmult_le_pos; lra).
  assert (Ud : 0 <= w3 * (hi - d)) by (apply Rmult_le_pos; lra).
  assert (Elo : lo = (w0 + w1 + w2 + w3) * lo) by (rewrite Hsum; ring).
  assert (Ehi : hi = (w0 + w1 + w2 + w3) * hi) by (rewrite Hsum; ring).
  split; nra.
Qed.

Lemma INR_1999 : INR 1999 = 1999.
Proof. rewrite INR_IZR_INZ. reflexivity. Qed.

(** The parameter of sample [i] lies in [0, 1]. *)
Lemma sample_parameter (i : nat) : (i < 2000)%nat -> 0 <= INR i / 1999 <= 1.
Proof.
  intros Hi. pose proof (pos_INR i) as H0.
  assert (H1 : INR i <= 1999) by (rewrite <- INR_1999; apply le_INR; lia).
  split.
  - apply Rmult_le_pos; lra.
  - apply (Rmult_le_reg_r 1999); [lra|]. unfold Rdiv. rewrite Rmult_assoc, Rinv_l by lra. lra.
Qed.

Lemma pts_length (scale : nat) : length (pts scale) = 2000%nat.
Proof. unfold pts. now rewrite length_map, length_seq. Qed.

Lemma pts_nth (scale i : nat) :
  (i < 2000)%nat ->
  nth i (pts scale) (0, 0) = cubic (p0 scale) (p1 scale) (p2 scale) (p3 scale) (INR i / 1999).
Proof.
  intros Hi. unfold pts.
  rewrite (nth_indep _ (0, 0)
             (cubic (p0 scale) (p1 scale) (p2 scale) (p3 scale) (INR 0 / 1999)))
    by now rewrite length_map, length_seq.
  rewrite (map_nth (fun i => cubic (p0 scale) (p1 scale) (p2 scale) (p3 scale) (INR i / 1999))
             (seq 0 2000) 0%nat i).
  now rewrite seq_nth.
Qed.

Lemma pts_in (scale : nat) (p : R * R) :
  In p (pts scale) ->
  exists t, 0 <= t <= 1 /\ p = cubic (p0 scale) (p1 scale) (p2 scale) (p3 scale) t.
Proof.
  unfold pts. intros Hin. apply List.in_map_iff in Hin. destruct Hin as [i [<- Hi]].
  apply in_seq in Hi. exists (INR i / 1999). split; [apply sample_parameter; lia | reflexivity].
Qed.

(** The x coordinate of the arc, as a polynomial in the parameter. *)
Lemma arc_x (scale : nat) (t : R) :
  fst (cubic (p0 scale) (p1 scale) (p2 scale) (p3 scale) t)
  = INR scale * (160 + 600 * t + 312 * t ^ 2 - 208 * t ^ 3).
Proof. unfold cubic, p0, p1, p2, p3. cbn [fst snd]. ring. Qed.

Lemma arc_x_increasing (a b : R) :
  0 <= a -> a < b -> b <= 1 ->
  160 + 600 * a + 312 * a ^ 2 - 208 * a ^ 3 < 160 + 600 * b + 312 * b ^ 2 - 208 * b ^ 3.
Proof.
  intros Ha Hab Hb.
  assert (E : (160 + 600 * b + 312 * b ^ 2 - 208 * b ^ 3)
              - (160 + 600 * a + 312 * a ^ 2 - 208 * a ^ 3)
              = (b - a) * (600 + 312 * (a + b) - 208 * (a ^ 2 + a * b + b ^ 2))) by ring.
  assert (Haa : a ^ 2 <= a) by nra.
  assert (Hbb : b ^ 2 <= b) by nra.
  assert (Hab1 : a * b <= a) by nra.
  assert (Hab2 : a * b <= b) by nra.
  assert (Hpos : 0 < (b - a) * (600 + 312 * (a + b) - 208 * (a ^ 2 + a * b + b ^ 2))).
  { apply Rmult_lt_0_compat; lra. }
  lra.
Qed.

End ArcFacts.

Import ArcFacts.

(** X11. The polyline of [make_arc_mask] has 2000 points, all inside the
    hull of the control points, [160 scale <= x <= 864 scale] and
    [250 scale <= y <= 560 scale]; so for a stroke width of at most [320] on
    a canvas of [out_size >= 1024] the square of half-side
    [stroke_w * scale / 2] around every point (the box of a cap, the reach
    of the stroke) lies inside the canvas: the stroke is not cut by its
    edge. *)
Theorem pts_inside_canvas (out_size scale stroke_w : nat) :
  (stroke_w <= 320)%nat -> (1024 <= out_size)%nat ->
  length (pts scale) = 2000%nat /\
  forall p, In p (pts scale) ->
    let r := (INR (stroke_w * scale) / 2)%R in
    let W := INR (out_size * scale) in
    (160 * INR scale <= fst p <= 864 * INR scale /\
     250 * INR scale <= snd p <= 560 * INR scale /\
     0 <= fst p - r /\ fst p + r <= W /\ 0 <= snd p - r /\ snd p + r <= W)%R.
Proof.
  intros Hs Ho. split; [apply pts_length|]. intros p Hin. cbv zeta.
  destruct (pts_in scale p Hin) as [t [Ht ->]].
  pose proof (pos_INR scale) as Hsc.
  assert (Hx : (160 * INR scale <= fst (cubic (p0 scale) (p1 scale) (p2 scale) (p3 scale) t)
                <= 864 * INR scale)%R).
  { unfold cubic, p0, p1, p2, p3. cbn [fst snd]. apply bernstein_hull; lra. }
  assert (Hy : (250 * INR scale <= snd (cubic (p0 scale) (p1 scale) (p2 scale) (p3 scale) t)
                <= 560 * INR scale)%R).
  { unfold cubic, p0, p1, p2, p3. cbn [fst snd]. apply bernstein_hull; lra. }
  rewrite !mult_INR.
  assert (Hsw : (0 <= INR stroke_w <= 320)%R).
  { split; [apply pos_INR|]. replace 320%R with (INR 320) by (rewrite INR_IZR_INZ; reflexivity).
    now apply le_INR. }
  assert (Hos : (1024 <= INR out_size)%R).
  { replace 1024%R with (INR 1024) by (rewrite INR_IZR_INZ; reflexivity). now apply le_INR. }
  set (X := fst _) in *. set (Y := snd _) in *.
  repeat split; try lra; nra.
Qed.

Lemma pts_inside_canvas_witness :
  (75 <= 320)%nat /\ (1024 <= Icon.OUT)%nat /\ length (pts 10) = 2000%nat.
Proof.
  assert (H1 : (75 <= 320)%nat) by lia.
  assert (H2 : (1024 <= Icon.OUT)%nat) by (unfold Icon.OUT; lia).
  split; [exact H1|]. split; [exact H2|].
  exact (proj1 (pts_inside_canvas Icon.OUT 10 75 H1 H2)).
Defined.

(** X12. The polyline runs from left to right: for a positive scale the x
    coordinates of [pts] are strictly increasing, so the sampled arc never
    doubles back on itself. *)
Theorem pts_left_to_right (scale i j : nat) :
  (0 < scale)%nat -> (i < j)%nat -> (j < 2000)%nat ->
  (fst (nth i (pts scale) (0, 0)) < fst (nth j (pts scale) (0, 0)))%R.
Proof.
  intros Hs Hij Hj. rewrite !pts_nth by lia. rewrite !arc_x.
  apply Rmult_lt_compat_l; [apply lt_0_INR; lia|].
  pose proof (sample_parameter i ltac:(lia)) as [Hi0 _].
  pose proof (sample_parameter j Hj) as [_ Hj1].
  apply arc_x_increasing; [exact Hi0 | | exact Hj1].
  unfold Rdiv. apply Rmult_lt_compat_r; [lra|]. apply lt_INR. exact Hij.
Qed.

Lemma pts_left_to_right_witness :
  (fst (nth 0 (pts 10) (0, 0)) < fst (nth 1999 (pts 10) (0, 0)))%R.
Proof. apply (pts_left_to_right 10 0 1999); lia. Defined.
